(** * elections.py: Beta prior, Bayesian update, probability of winning

    A shallow embedding of [src/elections.py].

    - [line] works on Python [int]s and on halves of [int]s, which binary
      floating point represents exactly: it is modelled on [Z] and [Q]
      and computes.
    - [alpha_beta] and [winning_probabilities] work on Python [float]s.
      They are modelled by their real-number semantics on [R]: rounding,
      the range of floats (overflow, underflow to zero) and NaN are not
      part of the model.  The one exception the arithmetic of the source
      can raise on real-valued input, [ZeroDivisionError], is modelled.
    - [scipy.stats.beta(a, b).cdf(x)] is library code.  It is a parameter
      [beta_cdf] of the model, and every call to it is recorded in a log,
      so that "which distributions were evaluated" is observable.  Where
      a property depends on what the Beta distribution function is, the
      parameter is [Beta_cdf], the distribution function on the reals. *)

From Stdlib Require Import ZArith QArith Reals Psatz String List ClassicalEpsilon.
Import ListNotations.

(** ** The line style helper *)

Module Style.

Local Open Scope string_scope.
Local Open Scope Z_scope.

(** [x < y] on rationals, as a boolean. *)
Definition Qltb (x y : Q) : bool := negb (Qle_bool y x).

(** [def line(i, total)], lines 8-24.  [i] and [total] are Python [int]s
    ([enumerate] index and [len]); [(total - 1) / 2] is true division;
    [if i:] tests [i] against zero. *)
Definition line (i total : Z) : string :=
  if total =? 2 then
    if negb (i =? 0) then "r-" else "b-"
  else
    let median : Q := (inject_Z (total - 1) / 2)%Q in
    if Qltb (inject_Z i) (median - (1 # 2))%Q then "b-"
    else if Qltb (median + (1 # 2))%Q (inject_Z i) then "r-"
    else "g-".

End Style.

(** ** Exceptions *)

Inductive exn : Type :=
| ZeroDivisionError.

Inductive result (A : Type) : Type :=
| Ok (a : A)
| Raise (e : exn).

Arguments Ok {A} a.
Arguments Raise {A} e.

Definition result_bind {A B : Type} (r : result A) (k : A -> result B) : result B :=
  match r with
  | Ok a => k a
  | Raise e => Raise e
  end.

Declare Scope result_scope.
Delimit Scope result_scope with result.

Notation "x <- c ;; k" := (result_bind c (fun x => k))
  (at level 100, c at next level, right associativity) : result_scope.

Local Open Scope R_scope.

(** Python's [x / y] on numbers: raises [ZeroDivisionError] when [y] is
    zero.  On the reals a divisor is zero only if it is 0: a float that
    has underflowed to [0.0] is outside the model. *)
Definition truediv (x y : R) : result R :=
  if Req_dec_T y 0 then Raise ZeroDivisionError else Ok (x / y).

(** ** The prior parameterizer *)

(** [def alpha_beta(mu, sigma)], lines 26-31.  The operands are evaluated
    left to right, so the division by [sigma ** 2] comes before the
    division by [mu].  The powers are exact: the [OverflowError] of a
    float power beyond the range of floats is outside the model. *)
Definition alpha_beta (mu sigma : R) : result (R * R) :=
  (q1 <- truediv (1 - mu) (sigma ^ 2) ;;
   q2 <- truediv 1 mu ;;
   let alpha := mu ^ 2 * (q1 - q2) in
   q3 <- truediv 1 mu ;;
   let beta := alpha * (q3 - 1) in
   Ok (alpha, beta))%result.

(** The values [alpha_beta] returns, as closed expressions. *)
Definition alpha_of (mu sigma : R) : R :=
  mu ^ 2 * ((1 - mu) / sigma ^ 2 - 1 / mu).

Definition beta_of (mu sigma : R) : R :=
  alpha_of mu sigma * (1 / mu - 1).

(** ** The posterior estimator *)

(** One evaluation [scipy.stats.beta(a, b).cdf(x)]. *)
Record cdf_call : Type := CdfCall { shape_a : R; shape_b : R; point : R }.

(** Computations that may raise and that record, in order, the
    distributions they evaluate. *)
Definition M (A : Type) : Type := list cdf_call -> result A * list cdf_call.

Definition ret {A : Type} (a : A) : M A := fun log => (Ok a, log).

Definition bind {A B : Type} (m : M A) (k : A -> M B) : M B :=
  fun log =>
    match m log with
    | (Ok a, log') => k a log'
    | (Raise e, log') => (Raise e, log')
    end.

Definition lift {A : Type} (r : result A) : M A := fun log => (r, log).

Declare Scope M_scope.
Delimit Scope M_scope with M.

Notation "x <- c ;; k" := (bind c (fun x => k))
  (at level 100, c at next level, right associativity) : M_scope.
Notation "' p <- c ;; k" := (bind c (fun x => match x with p => k end))
  (at level 100, p pattern, c at next level, right associativity) : M_scope.

(** A Python [for x in xs: body] whose body updates the local state [s]. *)
Fixpoint for_each {A S : Type} (xs : list A) (body : S -> A -> M S) (s : S) : M S :=
  match xs with
  | [] => ret s
  | x :: xs' => (s' <- body s x ;; for_each xs' body s')%M
  end.

(** What a computation returns and which distributions it evaluated,
    started from an empty log. *)
Definition run {A : Type} (m : M A) : result A * list cdf_call := m [].

Section Estimator.

(** [beta_cdf a b x] stands for the number that
    [scipy.stats.beta(a, b).cdf(x)] returns. *)
Variable beta_cdf : R -> R -> R -> R.

Definition scipy_stats_beta_cdf (a b x : R) : M R :=
  fun log => (Ok (beta_cdf a b x), log ++ [CdfCall a b x]).

(** [def winning_probabilities(prior_mu, prior_sigma, total_votes,
    fraction_counted, fractions_in_favor)], lines 33-49. *)
Definition winning_probabilities
    (prior_mu prior_sigma total_votes fraction_counted : R)
    (fractions_in_favor : list R) : M (list R) :=
  ('(prior_alpha, prior_beta) <- lift (alpha_beta prior_mu prior_sigma) ;;
   let counted_votes := total_votes * fraction_counted in
   for_each fractions_in_favor
     (fun winning_ps fraction_in_favor =>
        let votes_in_favor := counted_votes * fraction_in_favor in
        let votes_against := counted_votes - votes_in_favor in
        p <- scipy_stats_beta_cdf (prior_alpha + votes_in_favor)
                                  (prior_beta + votes_against) (1 / 2) ;;
        ret (winning_ps ++ [1 - p]))
     [])%M.

(** What one iteration of the loop evaluates and what it appends, for the
    prior [(prior_alpha, prior_beta)] and [counted_votes]. *)
Definition posterior_call (prior_alpha prior_beta counted_votes x : R) : cdf_call :=
  CdfCall (prior_alpha + counted_votes * x)
          (prior_beta + (counted_votes - counted_votes * x)) (1 / 2).

Definition posterior_win (prior_alpha prior_beta counted_votes x : R) : R :=
  1 - beta_cdf (prior_alpha + counted_votes * x)
               (prior_beta + (counted_votes - counted_votes * x)) (1 / 2).

(** The Beta distribution function at one half does not increase with the
    first shape parameter and does not decrease with the second one (a
    larger [a] or a smaller [b] moves mass to the right).  This is a fact
    about the library's distribution, stated for positive shapes only. *)
Definition cdf_half_monotone : Prop :=
  forall a1 b1 a2 b2 : R,
    0 < a1 <= a2 -> 0 < b2 <= b1 ->
    beta_cdf a2 b2 (1 / 2) <= beta_cdf a1 b1 (1 / 2).

End Estimator.

(** A concrete distribution function to run the estimator with: the
    two-point law on 0 and 1 with the mean [a / (a + b)] of Beta(a, b),
    which Beta(e * a, e * b) tends to as [e] tends to 0. *)
Definition two_point_cdf (a b x : R) : R :=
  if Rlt_dec x 0 then 0
  else if Rlt_dec x 1 then b / (a + b)
  else 1.


(** ** The Beta distribution function *)

(** The density of Beta(a, b) up to its normalising constant. *)
Definition beta_kernel (a b t : R) : R :=
  Rpower t (a - 1) * Rpower (1 - t) (b - 1).

(** The Riemann integral of [f] over [[u, v]] and the limit of a
    sequence, as total operations: they are the integral and the limit
    where these exist. *)
Definition integral (f : R -> R) (u v : R) : R :=
  epsilon (inhabits 0)
    (fun I => exists pr : Riemann_integrable f u v, RiemannInt pr = I).

Definition limit (U : nat -> R) : R :=
  epsilon (inhabits 0) (fun l => Un_cv U l).

(** The density is not bounded at 0 for [a < 1] and at 1 for [b < 1],
    so the mass below and above [x] are limits of integrals over
    intervals that stop short of 0 and of 1 by the fraction
    [cutoff n = 1 / (n + 2)]. *)
Definition cutoff (n : nat) : R := / (INR n + 2).

Definition below_seq (a b x : R) (n : nat) : R :=
  integral (beta_kernel a b) (x * cutoff n) x.

Definition above_seq (a b x : R) (n : nat) : R :=
  integral (beta_kernel a b) x (1 - (1 - x) * cutoff n).

Definition mass_below (a b x : R) : R := limit (below_seq a b x).

Definition mass_above (a b x : R) : R := limit (above_seq a b x).

(** Modelled from the spec: the library function
    [scipy.stats.beta(a, b).cdf(x)], which the spec calls the CDF of the
    Beta distribution with parameters [(a, b)]: the share of the mass of
    the density [t ^ (a - 1) * (1 - t) ^ (b - 1)] on (0, 1) that lies
    below [x].  Shapes that are not positive, for which there is no such
    distribution, are outside what the properties below use. *)
Definition Beta_cdf (a b x : R) : R :=
  if Rle_dec x 0 then 0
  else if Rle_dec 1 x then 1
  else mass_below a b x / (mass_below a b x + mass_above a b x).

(** A constant [K] and a function with derivative
    [K * (t ^ (a - 1) + (1 - t) ^ (b - 1))], which is at least the
    density on (0, 1): they bound the mass of every interval. *)
Definition kernel_bound (a b : R) : R :=
  Rpower 2 (Rabs (a - 1)) + Rpower 2 (Rabs (b - 1)).

Definition kernel_major (a b t : R) : R :=
  kernel_bound a b * (/ a * Rpower t a - / b * Rpower (1 - t) b).

(** The density of Beta(a2, b2) over the density of Beta(a1, b1), at [x]. *)
Definition shape_ratio (a1 b1 a2 b2 x : R) : R :=
  Rpower x (a2 - a1) * Rpower (1 - x) (b2 - b1).

(** ** The sweep drivers *)

(** The line that [matplotlib.pyplot.plot(x, y, fmt, label=...)] draws;
    the call returns the list of the lines it has drawn, here this one
    line, which [[0]] selects. *)
Record line2d : Type :=
  Line2D { xdata : list R; ydata : list R; fmt : string; label : R }.

(** The calls to [matplotlib.pyplot] that the drivers make. *)
Inductive plt_cmd : Type :=
| PltFigure (num : Z)
| PltTitle (s : string)
| PltXlabel (s : string)
| PltYlabel (s : string)
| PltPlot (l : line2d)
| PltLegend (handles : list line2d) (loc : string).

(** What a driver leaves behind: the distributions evaluated and the
    plotting calls made, both in order. *)
Record world : Type :=
  World { evaluated : list cdf_call; drawn : list plt_cmd }.

Definition IO (A : Type) : Type := world -> result A * world.

Definition io_ret {A : Type} (a : A) : IO A := fun w => (Ok a, w).

Definition io_bind {A B : Type} (m : IO A) (k : A -> IO B) : IO B :=
  fun w =>
    match m w with
    | (Ok a, w') => k a w'
    | (Raise e, w') => (Raise e, w')
    end.

(** A computation of the estimator, run inside a driver. *)
Definition io_lift {A : Type} (m : M A) : IO A :=
  fun w =>
    let (r, log) := m (evaluated w) in
    (r, World log (drawn w)).

Definition pyplot (c : plt_cmd) : IO unit :=
  fun w => (Ok tt, World (evaluated w) (drawn w ++ [c])).

Definition pyplot_plot (x y : list R) (style : string) (lbl : R) : IO line2d :=
  fun w =>
    let l := Line2D x y style lbl in
    (Ok l, World (evaluated w) (drawn w ++ [PltPlot l])).

Declare Scope IO_scope.
Delimit Scope IO_scope with IO.

Notation "x <- c ;; k" := (io_bind c (fun x => k))
  (at level 100, c at next level, right associativity) : IO_scope.
Notation "c ;;; k" := (io_bind c (fun _ => k))
  (at level 100, right associativity) : IO_scope.

Fixpoint io_for_each {A S : Type} (xs : list A) (body : S -> A -> IO S) (s : S) : IO S :=
  match xs with
  | [] => io_ret s
  | x :: xs' => (s' <- body s x ;; io_for_each xs' body s')%IO
  end.

(** Python's [enumerate] and [len]. *)
Fixpoint enumerate_from {A : Type} (i : Z) (l : list A) : list (Z * A) :=
  match l with
  | [] => []
  | a :: l' => (i, a) :: enumerate_from (i + 1)%Z l'
  end.

Definition enumerate {A : Type} (l : list A) : list (Z * A) := enumerate_from 0%Z l.

Definition len {A : Type} (l : list A) : Z := Z.of_nat (length l).

(** A driver started in a world where nothing has been evaluated or drawn. *)
Definition io_run {A : Type} (m : IO A) : result A * world := m (World [] []).

Section Drivers.

Variable beta_cdf : R -> R -> R -> R.

(** [def varying_mu(figure_num, prior_mus, prior_sigma, total_votes,
    fraction_counted, fractions_in_favor)], lines 51-69. *)
Definition varying_mu (figure_num : Z) (prior_mus : list R)
    (prior_sigma total_votes fraction_counted : R)
    (fractions_in_favor : list R) : IO unit :=
  (pyplot (PltFigure figure_num) ;;;
   pyplot (PltTitle "Varying mu of beta prior") ;;;
   pyplot (PltXlabel "Percentage of counted votes in favor") ;;;
   pyplot (PltYlabel "Probability of winning") ;;;
   handles <-
     io_for_each (enumerate prior_mus)
       (fun handles '(i, prior_mu) =>
          winning_ps <- io_lift (winning_probabilities beta_cdf prior_mu prior_sigma
                                   total_votes fraction_counted fractions_in_favor) ;;
          h <- pyplot_plot fractions_in_favor winning_ps
                 (Style.line i (len prior_mus)) prior_mu ;;
          io_ret (handles ++ [h]))
       [] ;;
   pyplot (PltLegend handles "upper left"))%IO.

(** [def varying_sigma(figure_num, prior_mu, prior_sigmas, total_votes,
    fraction_counted, fractions_in_favor)], lines 71-89. *)
Definition varying_sigma (figure_num : Z) (prior_mu : R) (prior_sigmas : list R)
    (total_votes fraction_counted : R)
    (fractions_in_favor : list R) : IO unit :=
  (pyplot (PltFigure figure_num) ;;;
   pyplot (PltTitle "Varying sigma of beta prior") ;;;
   pyplot (PltXlabel "Percentage of counted votes in favor") ;;;
   pyplot (PltYlabel "Probability of winning") ;;;
   handles <-
     io_for_each (enumerate prior_sigmas)
       (fun handles '(i, prior_sigma) =>
          winning_ps <- io_lift (winning_probabilities beta_cdf prior_mu prior_sigma
                                   total_votes fraction_counted fractions_in_favor) ;;
          h <- pyplot_plot fractions_in_favor winning_ps
                 (Style.line i (len prior_sigmas)) prior_sigma ;;
          io_ret (handles ++ [h]))
       [] ;;
   pyplot (PltLegend handles "upper left"))%IO.

(** [def varying_total_votes(figure_num, prior_mu, prior_sigma,
    total_voteses, fraction_counted, fractions_in_favor)], lines 91-109. *)
Definition varying_total_votes (figure_num : Z) (prior_mu prior_sigma : R)
    (total_voteses : list R) (fraction_counted : R)
    (fractions_in_favor : list R) : IO unit :=
  (pyplot (PltFigure figure_num) ;;;
   pyplot (PltTitle "Varying total votes") ;;;
   pyplot (PltXlabel "Percentage of counted votes in favor") ;;;
   pyplot (PltYlabel "Probability of winning") ;;;
   handles <-
     io_for_each (enumerate total_voteses)
       (fun handles '(i, total_votes) =>
          winning_ps <- io_lift (winning_probabilities beta_cdf prior_mu prior_sigma
                                   total_votes fraction_counted fractions_in_favor) ;;
          h <- pyplot_plot fractions_in_favor winning_ps
                 (Style.line i (len total_voteses)) total_votes ;;
          io_ret (handles ++ [h]))
       [] ;;
   pyplot (PltLegend handles "lower right"))%IO.

(** [def varying_fraction_counted(figure_num, prior_mu, prior_sigma,
    total_votes, fraction_counteds, fractions_in_favor)], lines 111-129. *)
Definition varying_fraction_counted (figure_num : Z) (prior_mu prior_sigma : R)
    (total_votes : R) (fraction_counteds : list R)
    (fractions_in_favor : list R) : IO unit :=
  (pyplot (PltFigure figure_num) ;;;
   pyplot (PltTitle "Varying fraction counted") ;;;
   pyplot (PltXlabel "Percentage of counted votes in favor") ;;;
   pyplot (PltYlabel "Probability of winning") ;;;
   handles <-
     io_for_each (enumerate fraction_counteds)
       (fun handles '(i, fraction_counted) =>
          winning_ps <- io_lift (winning_probabilities beta_cdf prior_mu prior_sigma
                                   total_votes fraction_counted fractions_in_favor) ;;
          h <- pyplot_plot fractions_in_favor winning_ps
                 (Style.line i (len fraction_counteds)) fraction_counted ;;
          io_ret (handles ++ [h]))
       [] ;;
   pyplot (PltLegend handles "upper left"))%IO.

End Drivers.

(** ** Vocabulary for the properties *)

(** The styles in the order in which [line] hands them out along the
    indices, and the style at the mirrored index. *)
Definition style_rank (s : string) : Z :=
  if String.eqb s "b-" then 0%Z
  else if String.eqb s "g-" then 1%Z
  else 2%Z.

Definition flip_style (s : string) : string :=
  if String.eqb s "b-" then "r-"%string
  else if String.eqb s "r-" then "b-"%string
  else s.

(** The Beta distribution function at one half under exchange of the two
    shape parameters: Beta(b, a) is Beta(a, b) reflected about one half.
    A fact about the library's distribution, for positive shapes. *)
Definition cdf_half_reflect (beta_cdf : R -> R -> R -> R) : Prop :=
  forall a b : R, 0 < a -> 0 < b ->
    beta_cdf b a (1 / 2) = 1 - beta_cdf a b (1 / 2).

(** The variance of the Beta distribution with shapes [a] and [b]. *)
Definition beta_variance (a b : R) : R :=
  a * b / ((a + b) ^ 2 * (a + b + 1)).

(** The four drivers are one loop, up to the parameter that is swept, the
    title and the place of the legend. *)
Inductive axis : Type := Mu | Sigma | TotalVotes | FractionCounted.

Definition varying (beta_cdf : R -> R -> R -> R) (ax : axis) (figure_num : Z)
    (values : list R) (mu sigma T f : R) (xs : list R) : IO unit :=
  match ax with
  | Mu => varying_mu beta_cdf figure_num values sigma T f xs
  | Sigma => varying_sigma beta_cdf figure_num mu values T f xs
  | TotalVotes => varying_total_votes beta_cdf figure_num mu sigma values f xs
  | FractionCounted => varying_fraction_counted beta_cdf figure_num mu sigma T values xs
  end.

Definition axis_title (ax : axis) : string :=
  match ax with
  | Mu => "Varying mu of beta prior"
  | Sigma => "Varying sigma of beta prior"
  | TotalVotes => "Varying total votes"
  | FractionCounted => "Varying fraction counted"
  end.

Definition axis_loc (ax : axis) : string :=
  match ax with
  | TotalVotes => "lower right"
  | _ => "upper left"
  end.

(** The parameters in force while the swept parameter has the value [v]. *)
Definition mu_at (ax : axis) (v mu : R) : R :=
  match ax with Mu => v | _ => mu end.

Definition sigma_at (ax : axis) (v sigma : R) : R :=
  match ax with Sigma => v | _ => sigma end.

Definition total_votes_at (ax : axis) (v T : R) : R :=
  match ax with TotalVotes => v | _ => T end.

Definition fraction_counted_at (ax : axis) (v f : R) : R :=
  match ax with FractionCounted => v | _ => f end.

(** The swept value [v] makes [alpha_beta] raise. *)
Definition raises_at (ax : axis) (mu sigma v : R) : Prop :=
  mu_at ax v mu = 0 \/ sigma_at ax v sigma = 0.

(** The calls that open a figure. *)
Definition header (ax : axis) (figure_num : Z) : list plt_cmd :=
  [PltFigure figure_num; PltTitle (axis_title ax);
   PltXlabel "Percentage of counted votes in favor";
   PltYlabel "Probability of winning"].

(** The probabilities on the curve of the swept value [v], the curve at
    index [i] of [n], and the distributions evaluated for it. *)
Definition curve_ys (beta_cdf : R -> R -> R -> R) (ax : axis)
    (mu sigma T f : R) (xs : list R) (v : R) : list R :=
  map (posterior_win beta_cdf
         (alpha_of (mu_at ax v mu) (sigma_at ax v sigma))
         (beta_of (mu_at ax v mu) (sigma_at ax v sigma))
         (total_votes_at ax v T * fraction_counted_at ax v f)) xs.

Definition curve (beta_cdf : R -> R -> R -> R) (ax : axis) (n : Z)
    (mu sigma T f : R) (xs : list R) (iv : Z * R) : line2d :=
  let (i, v) := iv in
  Line2D xs (curve_ys beta_cdf ax mu sigma T f xs v) (Style.line i n) v.

Definition curve_calls (ax : axis) (mu sigma T f : R) (xs : list R) (v : R) :
    list cdf_call :=
  map (posterior_call
         (alpha_of (mu_at ax v mu) (sigma_at ax v sigma))
         (beta_of (mu_at ax v mu) (sigma_at ax v sigma))
         (total_votes_at ax v T * fraction_counted_at ax v f)) xs.

(** A plotted line whose data fit the grid [xs]. *)
Definition fits (xs : list R) (c : plt_cmd) : Prop :=
  match c with
  | PltPlot l => xdata l = xs /\ length (ydata l) = length xs
  | _ => True
  end.

(** The loop the four drivers share, for an estimator [est] of the swept
    value. *)
Definition sweep (est : R -> M (list R)) (title loc : string) (figure_num : Z)
    (values xs : list R) : IO unit :=
  (pyplot (PltFigure figure_num) ;;;
   pyplot (PltTitle title) ;;;
   pyplot (PltXlabel "Percentage of counted votes in favor") ;;;
   pyplot (PltYlabel "Probability of winning") ;;;
   handles <-
     io_for_each (enumerate values)
       (fun handles '(i, v) =>
          winning_ps <- io_lift (est v) ;;
          h <- pyplot_plot xs winning_ps (Style.line i (len values)) v ;;
          io_ret (handles ++ [h]))
       [] ;;
   pyplot (PltLegend handles loc))%IO.

(** The estimator that the driver of [ax] calls for the swept value [v]. *)
Definition estimator_at (beta_cdf : R -> R -> R -> R) (ax : axis)
    (mu sigma T f : R) (xs : list R) (v : R) : M (list R) :=
  winning_probabilities beta_cdf (mu_at ax v mu) (sigma_at ax v sigma)
    (total_votes_at ax v T) (fraction_counted_at ax v f) xs.

(** One round of that loop, the line it draws where [est] returns [ys v],
    and the two ways a round can go: [est] returns [ys v] after
    evaluating [calls v], or raises [e] after evaluating nothing. *)
Definition sweep_body (est : R -> M (list R)) (xs : list R) (n : Z)
    (handles : list line2d) (iv : Z * R) : IO (list line2d) :=
  let '(i, v) := iv in
  (winning_ps <- io_lift (est v) ;;
   h <- pyplot_plot xs winning_ps (Style.line i n) v ;;
   io_ret (handles ++ [h]))%IO.

Definition line_of (xs : list R) (n : Z) (ys : R -> list R) (iv : Z * R) : line2d :=
  let '(i, v) := iv in Line2D xs (ys v) (Style.line i n) v.

Definition returns_at (est : R -> M (list R)) (ys : R -> list R)
    (calls : R -> list cdf_call) (v : R) : Prop :=
  forall log, est v log = (Ok (ys v), log ++ calls v).

Definition raises_with (est : R -> M (list R)) (e : exn) (v : R) : Prop :=
  forall log, est v log = (Raise e, log).

(** * Properties *)

(** ** Division and the prior parameterizer *)

Lemma truediv_nonzero (x y : R) : y <> 0 -> truediv x y = Ok (x / y).
Proof.
  intros Hy. unfold truediv.
  destruct (Req_dec_T y 0) as [E | _]; [contradiction | reflexivity].
Qed.

Lemma truediv_zero (x y : R) : y = 0 -> truediv x y = Raise ZeroDivisionError.
Proof.
  intros Hy. unfold truediv.
  destruct (Req_dec_T y 0) as [_ | N]; [reflexivity | contradiction].
Qed.

Lemma sq_nonzero (s : R) : s <> 0 -> s ^ 2 <> 0.
Proof. intros Hs. apply pow_nonzero. exact Hs. Qed.

Lemma alpha_beta_returns (mu sigma : R) :
  mu <> 0 -> sigma <> 0 ->
  alpha_beta mu sigma = Ok (alpha_of mu sigma, beta_of mu sigma).
Proof.
  intros Hmu Hsigma. unfold alpha_beta.
  rewrite (truediv_nonzero _ _ (sq_nonzero _ Hsigma)). cbn [result_bind].
  rewrite (truediv_nonzero _ _ Hmu). cbn [result_bind].
  reflexivity.
Qed.

Lemma alpha_beta_raises (mu sigma : R) :
  mu = 0 \/ sigma = 0 ->
  alpha_beta mu sigma = Raise ZeroDivisionError.
Proof.
  intros H. unfold alpha_beta.
  destruct (Req_dec_T sigma 0) as [Hs | Hs].
  - rewrite truediv_zero; [reflexivity | subst sigma; ring].
  - destruct H as [Hmu | Hs0]; [| contradiction].
    rewrite (truediv_nonzero _ _ (sq_nonzero _ Hs)). cbn [result_bind].
    rewrite (truediv_zero _ _ Hmu). reflexivity.
Qed.

Lemma alpha_beta_inv (mu sigma alpha beta : R) :
  alpha_beta mu sigma = Ok (alpha, beta) ->
  mu <> 0 /\ sigma <> 0 /\ alpha = alpha_of mu sigma /\ beta = beta_of mu sigma.
Proof.
  intros H.
  destruct (Req_dec_T mu 0) as [Hmu | Hmu].
  { rewrite alpha_beta_raises in H by (left; exact Hmu). discriminate. }
  destruct (Req_dec_T sigma 0) as [Hs | Hs].
  { rewrite alpha_beta_raises in H by (right; exact Hs). discriminate. }
  rewrite (alpha_beta_returns _ _ Hmu Hs) in H.
  injection H as Ha Hb. subst. repeat split; assumption.
Qed.

(** The shape parameters against the feasibility margin
    [mu * (1 - mu) - sigma ^ 2]. *)
Lemma alpha_of_margin (mu sigma : R) :
  mu <> 0 -> sigma <> 0 ->
  alpha_of mu sigma = mu * (mu * (1 - mu) - sigma ^ 2) / sigma ^ 2.
Proof. intros Hmu Hs. unfold alpha_of. field. split; assumption. Qed.

Lemma beta_of_margin (mu sigma : R) :
  mu <> 0 -> sigma <> 0 ->
  beta_of mu sigma = (1 - mu) * (mu * (1 - mu) - sigma ^ 2) / sigma ^ 2.
Proof. intros Hmu Hs. unfold beta_of, alpha_of. field. split; assumption. Qed.

Lemma sq_pos (s : R) : s <> 0 -> 0 < s ^ 2.
Proof.
  intros Hs. destruct (Rtotal_order s 0) as [Hneg | [Hz | Hpos]];
    [nra | contradiction | nra].
Qed.

Lemma alpha_of_pos (mu sigma : R) :
  0 < mu < 1 -> sigma <> 0 -> sigma ^ 2 < mu * (1 - mu) ->
  0 < alpha_of mu sigma.
Proof.
  intros [Hmu0 Hmu1] Hs Hvar.
  rewrite alpha_of_margin by lra.
  apply Rdiv_lt_0_compat; [| apply sq_pos; exact Hs].
  apply Rmult_lt_0_compat; lra.
Qed.

Lemma beta_of_pos (mu sigma : R) :
  0 < mu < 1 -> sigma <> 0 -> sigma ^ 2 < mu * (1 - mu) ->
  0 < beta_of mu sigma.
Proof.
  intros [Hmu0 Hmu1] Hs Hvar.
  rewrite beta_of_margin by lra.
  apply Rdiv_lt_0_compat; [| apply sq_pos; exact Hs].
  apply Rmult_lt_0_compat; lra.
Qed.

Lemma alpha_of_nonpos (mu sigma : R) :
  0 < mu < 1 -> sigma <> 0 -> mu * (1 - mu) <= sigma ^ 2 ->
  alpha_of mu sigma <= 0.
Proof.
  intros [Hmu0 Hmu1] Hs Hvar.
  rewrite alpha_of_margin by lra.
  pose proof (sq_pos _ Hs) as Hs2.
  apply Rmult_le_reg_r with (r := sigma ^ 2); [exact Hs2 |].
  unfold Rdiv. rewrite Rmult_assoc, Rinv_l by lra. nra.
Qed.

Lemma beta_of_nonpos (mu sigma : R) :
  0 < mu < 1 -> sigma <> 0 -> mu * (1 - mu) <= sigma ^ 2 ->
  beta_of mu sigma <= 0.
Proof.
  intros [Hmu0 Hmu1] Hs Hvar.
  rewrite beta_of_margin by lra.
  pose proof (sq_pos _ Hs) as Hs2.
  apply Rmult_le_reg_r with (r := sigma ^ 2); [exact Hs2 |].
  unfold Rdiv. rewrite Rmult_assoc, Rinv_l by lra. nra.
Qed.

(** The defaults of the script: [alpha_beta(.4, .05)] is [(38, 57)]. *)
Lemma alpha_beta_defaults : alpha_beta (2 / 5) (1 / 20) = Ok (38, 57).
Proof.
  rewrite alpha_beta_returns by lra.
  unfold beta_of, alpha_of. do 2 f_equal; field.
Qed.

(** C1 (as stated, refuted): at [mu = 0.5], [sigma = 0.9] the variance
    [0.81] is not below [mu * (1 - mu) = 0.25], and [alpha_beta] raises
    nothing: it returns the pair [(-28/81, -28/81)].  The script's own
    sweep over sigma ends with [sigma = 1] at [mu = .4], infeasible as
    well, and gets [(-38/125, -57/125)]. *)
Lemma alpha_beta_infeasible_example :
  (~ (9 / 10) ^ 2 < 1 / 2 * (1 - 1 / 2) /\
   alpha_beta (1 / 2) (9 / 10) = Ok (- (28 / 81), - (28 / 81))) /\
  (~ 1 ^ 2 < 2 / 5 * (1 - 2 / 5) /\
   alpha_beta (2 / 5) 1 = Ok (- (38 / 125), - (57 / 125))).
Proof.
  split; (split; [lra |]).
  all: rewrite alpha_beta_returns by lra.
  all: unfold beta_of, alpha_of; do 2 f_equal; field.
Qed.

(** C1 (amended): when [sigma ^ 2] is not less than [mu * (1 - mu)] (and
    neither [mu] nor [sigma] is zero, so that no division raises),
    [alpha_beta] has no validity check and returns a pair; for [mu] in
    (0, 1) neither component of that pair is positive. *)
Theorem alpha_beta_infeasible_returns (mu sigma : R) :
  mu <> 0 -> sigma <> 0 -> mu * (1 - mu) <= sigma ^ 2 ->
  exists alpha beta : R,
    alpha_beta mu sigma = Ok (alpha, beta) /\
    (0 < mu < 1 -> alpha <= 0 /\ beta <= 0).
Proof.
  intros Hmu Hs Hvar.
  exists (alpha_of mu sigma), (beta_of mu sigma). split.
  - apply alpha_beta_returns; assumption.
  - intros Hrange. split.
    + apply alpha_of_nonpos; assumption.
    + apply beta_of_nonpos; assumption.
Qed.

Lemma alpha_beta_infeasible_returns_witness :
  exists alpha beta : R,
    alpha_beta (1 / 2) (9 / 10) = Ok (alpha, beta) /\
    (0 < 1 / 2 < 1 -> alpha <= 0 /\ beta <= 0).
Proof.
  apply (alpha_beta_infeasible_returns (1 / 2) (9 / 10)); lra.
Defined.

(** C4: for [mu] in (0, 1) and [sigma > 0] with
    [sigma ^ 2 < mu * (1 - mu)], [alpha_beta] returns [alpha > 0] and
    [beta > 0], and the implied mean [alpha / (alpha + beta)] is [mu]. *)
Theorem alpha_beta_valid_prior (mu sigma : R) :
  0 < mu < 1 -> 0 < sigma -> sigma ^ 2 < mu * (1 - mu) ->
  exists alpha beta : R,
    alpha_beta mu sigma = Ok (alpha, beta) /\
    0 < alpha /\ 0 < beta /\ alpha / (alpha + beta) = mu.
Proof.
  intros Hmu Hs Hvar.
  assert (Hs0 : sigma <> 0) by lra.
  pose proof (alpha_of_pos mu sigma Hmu Hs0 Hvar) as Ha.
  pose proof (beta_of_pos mu sigma Hmu Hs0 Hvar) as Hb.
  exists (alpha_of mu sigma), (beta_of mu sigma).
  split; [apply alpha_beta_returns; lra |].
  split; [exact Ha |]. split; [exact Hb |].
  unfold beta_of in *.
  set (a := alpha_of mu sigma) in *.
  field. split; lra.
Qed.

Lemma alpha_beta_valid_prior_witness :
  exists alpha beta : R,
    alpha_beta (2 / 5) (1 / 20) = Ok (alpha, beta) /\
    0 < alpha /\ 0 < beta /\ alpha / (alpha + beta) = 2 / 5.
Proof.
  apply (alpha_beta_valid_prior (2 / 5) (1 / 20)); lra.
Defined.

(** C9: [alpha_beta] is mirror-symmetric about [mu = 1/2]: for [mu] in
    (0, 1) and [sigma > 0], if [alpha_beta mu sigma] is [(alpha, beta)]
    then [alpha_beta (1 - mu) sigma] is [(beta, alpha)], exactly. *)
Theorem alpha_beta_mirror (mu sigma alpha beta : R) :
  0 < mu < 1 -> 0 < sigma ->
  alpha_beta mu sigma = Ok (alpha, beta) ->
  alpha_beta (1 - mu) sigma = Ok (beta, alpha).
Proof.
  intros Hmu Hs H.
  apply alpha_beta_inv in H. destruct H as (Hmu0 & Hs0 & -> & ->).
  rewrite alpha_beta_returns by lra.
  unfold beta_of, alpha_of. do 2 f_equal; field; repeat split; lra.
Qed.

Lemma alpha_beta_mirror_witness :
  alpha_beta (1 - 2 / 5) (1 / 20) = Ok (57, 38).
Proof.
  apply (alpha_beta_mirror (2 / 5) (1 / 20) 38 57); [lra | lra |].
  exact alpha_beta_defaults.
Defined.

(** ** The posterior estimator *)

Section EstimatorProperties.

Variable beta_cdf : R -> R -> R -> R.

(** The loop appends one probability per element, in order, and logs one
    evaluation per element, in order. *)
Lemma for_each_posterior (alpha beta c : R) (xs : list R) :
  forall (acc : list R) (log : list cdf_call),
    for_each xs
      (fun winning_ps fraction_in_favor =>
         let votes_in_favor := c * fraction_in_favor in
         let votes_against := c - votes_in_favor in
         (p <- scipy_stats_beta_cdf beta_cdf (alpha + votes_in_favor)
                                    (beta + votes_against) (1 / 2) ;;
          ret (winning_ps ++ [1 - p]))%M)
      acc log
    = (Ok (acc ++ map (posterior_win beta_cdf alpha beta c) xs),
       log ++ map (posterior_call alpha beta c) xs).
Proof.
  induction xs as [| x xs IH]; intros acc log.
  - cbn. rewrite !app_nil_r. reflexivity.
  - cbn [for_each map]. unfold bind at 1.
    unfold bind at 1, scipy_stats_beta_cdf, ret at 1.
    rewrite IH. rewrite <- !app_assoc. reflexivity.
Qed.

Lemma winning_probabilities_returns (mu sigma T f alpha beta : R) (xs : list R)
    (log : list cdf_call) :
  alpha_beta mu sigma = Ok (alpha, beta) ->
  winning_probabilities beta_cdf mu sigma T f xs log
  = (Ok (map (posterior_win beta_cdf alpha beta (T * f)) xs),
     log ++ map (posterior_call alpha beta (T * f)) xs).
Proof.
  intros Hab. unfold winning_probabilities, bind at 1, lift.
  rewrite Hab. cbv zeta. rewrite for_each_posterior. reflexivity.
Qed.

Lemma winning_probabilities_raises (mu sigma T f : R) (xs : list R) (e : exn)
    (log : list cdf_call) :
  alpha_beta mu sigma = Raise e ->
  winning_probabilities beta_cdf mu sigma T f xs log = (Raise e, log).
Proof.
  intros Hab. unfold winning_probabilities, bind at 1, lift.
  rewrite Hab. reflexivity.
Qed.

Lemma posterior_win_claim_form (alpha beta c x : R) :
  posterior_win beta_cdf alpha beta c x
  = 1 - beta_cdf (alpha + c * x) (beta + c * (1 - x)) (1 / 2).
Proof.
  unfold posterior_win.
  replace (c - c * x) with (c * (1 - x)) by ring. reflexivity.
Qed.

Lemma posterior_win_zero (alpha beta x : R) :
  posterior_win beta_cdf alpha beta 0 x = 1 - beta_cdf alpha beta (1 / 2).
Proof.
  unfold posterior_win.
  replace (alpha + 0 * x) with alpha by ring.
  replace (beta + (0 - 0 * x)) with beta by ring. reflexivity.
Qed.

Lemma posterior_call_zero (alpha beta x : R) :
  posterior_call alpha beta 0 x = CdfCall alpha beta (1 / 2).
Proof.
  unfold posterior_call.
  replace (alpha + 0 * x) with alpha by ring.
  replace (beta + (0 - 0 * x)) with beta by ring. reflexivity.
Qed.

(** C2: when [alpha_beta mu sigma] is [(alpha, beta)], the estimator
    returns a sequence as long as [xs] whose [i]-th element is
    [1 - CDF(0.5)] of the Beta distribution with parameters
    [(alpha + c * xs[i], beta + c * (1 - xs[i]))], [c = T * f]: the
    output follows the input element by element, in order. *)
Theorem winning_probabilities_pointwise (mu sigma T f alpha beta : R)
    (xs : list R) :
  alpha_beta mu sigma = Ok (alpha, beta) ->
  exists ps : list R,
    fst (run (winning_probabilities beta_cdf mu sigma T f xs)) = Ok ps /\
    length ps = length xs /\
    forall (i : nat) (x : R),
      nth_error xs i = Some x ->
      nth_error ps i
      = Some (1 - beta_cdf (alpha + T * f * x) (beta + T * f * (1 - x)) (1 / 2)).
Proof.
  intros Hab.
  exists (map (posterior_win beta_cdf alpha beta (T * f)) xs).
  unfold run. rewrite (winning_probabilities_returns _ _ _ _ _ _ _ _ Hab).
  split; [reflexivity |]. split; [apply length_map |].
  intros i x Hx. rewrite nth_error_map, Hx. cbn [option_map].
  rewrite posterior_win_claim_form. reflexivity.
Qed.

(** The arithmetic of the loop carries the order of the shapes over to
    the order of the probabilities, for any distribution function that
    is [cdf_half_monotone]. *)
Lemma monotone_from_cdf (mu sigma T f x1 x2 : R)
    (xs : list R) (i j : nat) :
  cdf_half_monotone beta_cdf ->
  0 < mu < 1 -> 0 < sigma -> sigma ^ 2 < mu * (1 - mu) ->
  0 <= T * f ->
  nth_error xs i = Some x1 -> nth_error xs j = Some x2 ->
  0 <= x1 -> x1 <= x2 -> x2 <= 1 ->
  exists (ps : list R) (p1 p2 : R),
    fst (run (winning_probabilities beta_cdf mu sigma T f xs)) = Ok ps /\
    nth_error ps i = Some p1 /\ nth_error ps j = Some p2 /\
    p1 <= p2.
Proof.
  intros Hmono Hmu Hs Hvar Hc Hi Hj Hx1 Hx12 Hx2.
  assert (Hs0 : sigma <> 0) by lra.
  pose proof (alpha_of_pos mu sigma Hmu Hs0 Hvar) as Ha.
  pose proof (beta_of_pos mu sigma Hmu Hs0 Hvar) as Hb.
  assert (Hab : alpha_beta mu sigma = Ok (alpha_of mu sigma, beta_of mu sigma))
    by (apply alpha_beta_returns; lra).
  set (a := alpha_of mu sigma) in *. set (b := beta_of mu sigma) in *.
  set (c := T * f) in *.
  exists (map (posterior_win beta_cdf a b c) xs),
         (posterior_win beta_cdf a b c x1), (posterior_win beta_cdf a b c x2).
  unfold run. rewrite (winning_probabilities_returns _ _ _ _ _ _ _ _ Hab).
  split; [reflexivity |].
  split; [rewrite nth_error_map, Hi; reflexivity |].
  split; [rewrite nth_error_map, Hj; reflexivity |].
  unfold posterior_win.
  assert (H : beta_cdf (a + c * x2) (b + (c - c * x2)) (1 / 2)
              <= beta_cdf (a + c * x1) (b + (c - c * x1)) (1 / 2)).
  { apply Hmono; split; nra. }
  lra.
Qed.

(** C5: with [fraction_counted = 0] or [total_votes = 0] every element of
    the result is the prior's [1 - BetaCDF(alpha, beta, 0.5)], whatever
    the fraction in favour: each distribution evaluated is the prior. *)
Theorem winning_probabilities_no_votes (mu sigma T f alpha beta : R)
    (xs : list R) :
  alpha_beta mu sigma = Ok (alpha, beta) ->
  f = 0 \/ T = 0 ->
  run (winning_probabilities beta_cdf mu sigma T f xs)
  = (Ok (map (fun _ => 1 - beta_cdf alpha beta (1 / 2)) xs),
     map (fun _ => CdfCall alpha beta (1 / 2)) xs).
Proof.
  intros Hab Hzero.
  assert (Hc : T * f = 0) by (destruct Hzero; subst; ring).
  unfold run. rewrite (winning_probabilities_returns _ _ _ _ _ _ _ _ Hab), Hc.
  cbn [app]. f_equal.
  - f_equal. apply map_ext. intros x. apply posterior_win_zero.
  - apply map_ext. intros x. apply posterior_call_zero.
Qed.

(** C6 (amended): no call is rejected on account of [total_votes],
    [fraction_counted] or the fractions in favour: whatever their values,
    when [mu] and [sigma] are not zero the estimator evaluates one
    distribution per element and returns one probability per element. *)
Theorem winning_probabilities_no_range_check (mu sigma T f : R) (xs : list R) :
  mu <> 0 -> sigma <> 0 ->
  exists (ps : list R) (calls : list cdf_call),
    run (winning_probabilities beta_cdf mu sigma T f xs) = (Ok ps, calls) /\
    length ps = length xs /\ length calls = length xs.
Proof.
  intros Hmu Hs.
  pose proof (alpha_beta_returns mu sigma Hmu Hs) as Hab.
  eexists. eexists. unfold run.
  rewrite (winning_probabilities_returns _ _ _ _ _ _ _ _ Hab).
  split; [reflexivity |]. cbn [app]. split; apply length_map.
Qed.

(** C8: the result depends on [total_votes] and [fraction_counted] only
    through their product: calls with [T1 * f1 = T2 * f2] agree. *)
Theorem winning_probabilities_counted_votes (mu sigma T1 f1 T2 f2 : R)
    (xs : list R) :
  T1 * f1 = T2 * f2 ->
  run (winning_probabilities beta_cdf mu sigma T1 f1 xs)
  = run (winning_probabilities beta_cdf mu sigma T2 f2 xs).
Proof.
  intros Hc. unfold run, winning_probabilities. rewrite Hc. reflexivity.
Qed.

(** C10: on the empty sequence the estimator returns the empty sequence
    and evaluates no distribution, for every prior on which [alpha_beta]
    returns and every [total_votes] and [fraction_counted]. *)
Theorem winning_probabilities_empty (mu sigma T f : R) :
  mu <> 0 -> sigma <> 0 ->
  run (winning_probabilities beta_cdf mu sigma T f []) = (Ok [], []).
Proof.
  intros Hmu Hs.
  pose proof (alpha_beta_returns mu sigma Hmu Hs) as Hab.
  unfold run. rewrite (winning_probabilities_returns _ _ _ _ _ _ _ _ Hab).
  reflexivity.
Qed.

End EstimatorProperties.

(** ** The estimator run with a concrete distribution function *)

Lemma two_point_cdf_half (a b : R) : two_point_cdf a b (1 / 2) = b / (a + b).
Proof.
  unfold two_point_cdf.
  destruct (Rlt_dec (1 / 2) 0) as [H | _]; [lra |].
  destruct (Rlt_dec (1 / 2) 1) as [_ | H]; [reflexivity | lra].
Qed.

Lemma winning_probabilities_pointwise_witness :
  exists ps : list R,
    fst (run (winning_probabilities two_point_cdf (2 / 5) (1 / 20) 100000 (1 / 100)
                [2 / 5; 1 / 2; 3 / 5])) = Ok ps /\
    length ps = length [2 / 5; 1 / 2; 3 / 5] /\
    forall (i : nat) (x : R),
      nth_error [2 / 5; 1 / 2; 3 / 5] i = Some x ->
      nth_error ps i
      = Some (1 - two_point_cdf (38 + 100000 * (1 / 100) * x)
                                (57 + 100000 * (1 / 100) * (1 - x)) (1 / 2)).
Proof.
  apply (winning_probabilities_pointwise two_point_cdf
           (2 / 5) (1 / 20) 100000 (1 / 100) 38 57 [2 / 5; 1 / 2; 3 / 5]).
  exact alpha_beta_defaults.
Defined.

Lemma winning_probabilities_no_votes_witness :
  run (winning_probabilities two_point_cdf (2 / 5) (1 / 20) 100000 0 [2 / 5; 3 / 5])
  = (Ok (map (fun _ => 1 - two_point_cdf 38 57 (1 / 2)) [2 / 5; 3 / 5]),
     map (fun _ => CdfCall 38 57 (1 / 2)) [2 / 5; 3 / 5]).
Proof.
  apply (winning_probabilities_no_votes two_point_cdf
           (2 / 5) (1 / 20) 100000 0 38 57 [2 / 5; 3 / 5]).
  - exact alpha_beta_defaults.
  - left. reflexivity.
Defined.

(** C6 (as stated, refuted): with the prior [(0.4, 0.05)], that is
    [alpha = 38] and [beta = 57], a [fraction_counted] of 2, a fraction
    in favour of 3/2 and a [total_votes] of -10 are each accepted: the
    distribution is evaluated and a number is returned. *)
Lemma winning_probabilities_out_of_range_example :
  (~ 0 <= 2 <= 1 /\
   run (winning_probabilities two_point_cdf (2 / 5) (1 / 20) 100 2 [1 / 2])
   = (Ok [138 / 295], [CdfCall 138 157 (1 / 2)])) /\
  (~ 0 <= 3 / 2 <= 1 /\
   run (winning_probabilities two_point_cdf (2 / 5) (1 / 20) 100 (1 / 2) [3 / 2])
   = (Ok [113 / 145], [CdfCall 113 32 (1 / 2)])) /\
  (- 10 < 0 /\
   run (winning_probabilities two_point_cdf (2 / 5) (1 / 20) (- 10) (1 / 2) [1 / 2])
   = (Ok [71 / 180], [CdfCall (71 / 2) (109 / 2) (1 / 2)])).
Proof.
  unfold run.
  rewrite !(winning_probabilities_returns _ _ _ _ _ _ _ _ _ alpha_beta_defaults).
  cbn [map app]. unfold posterior_win, posterior_call.
  rewrite !two_point_cdf_half.
  repeat split; try lra.
  all: apply f_equal2; [apply f_equal, (f_equal2 cons); [| reflexivity]
                       | apply (f_equal2 cons); [| reflexivity]].
  all: try (apply (f_equal3 CdfCall); lra).
  all: field.
Qed.

Lemma winning_probabilities_no_range_check_witness :
  exists (ps : list R) (calls : list cdf_call),
    run (winning_probabilities two_point_cdf (2 / 5) (1 / 20) (- 10) 2 [3 / 2])
    = (Ok ps, calls) /\
    length ps = length [3 / 2] /\ length calls = length [3 / 2].
Proof.
  apply (winning_probabilities_no_range_check two_point_cdf
           (2 / 5) (1 / 20) (- 10) 2 [3 / 2]); lra.
Defined.

Lemma winning_probabilities_counted_votes_witness :
  run (winning_probabilities two_point_cdf (2 / 5) (1 / 20) 100000 (1 / 100) [1 / 2])
  = run (winning_probabilities two_point_cdf (2 / 5) (1 / 20) 1000 1 [1 / 2]).
Proof.
  apply (winning_probabilities_counted_votes two_point_cdf
           (2 / 5) (1 / 20) 100000 (1 / 100) 1000 1 [1 / 2]).
  lra.
Defined.

Lemma winning_probabilities_empty_witness :
  run (winning_probabilities two_point_cdf (2 / 5) (1 / 20) 100000 (1 / 100) [])
  = (Ok [], []).
Proof.
  apply (winning_probabilities_empty two_point_cdf (2 / 5) (1 / 20) 100000 (1 / 100));
    lra.
Defined.

(** ** The line style helper *)

Section LineRoles.

Import Style.
Local Open Scope Q_scope.

Lemma Qltb_lt (x y : Q) : Qltb x y = true <-> x < y.
Proof.
  unfold Qltb. rewrite Bool.negb_true_iff.
  split.
  - intros H. apply Qnot_le_lt. intros Hle.
    apply Qle_bool_iff in Hle. congruence.
  - intros H. destruct (Qle_bool y x) eqn:E; [| reflexivity].
    apply Qle_bool_iff in E. apply Qle_not_lt in E. contradiction.
Qed.

Lemma Qltb_nlt (x y : Q) : Qltb x y = false <-> ~ x < y.
Proof.
  rewrite <- Qltb_lt. destruct (Qltb x y); split; congruence.
Qed.

Lemma line_unfold (i total : Z) :
  total <> 2%Z ->
  line i total =
    (if Qltb (inject_Z i) (inject_Z (total - 1) / 2 - (1 # 2)) then "b-"
     else if Qltb (inject_Z (total - 1) / 2 + (1 # 2)) (inject_Z i) then "r-"
     else "g-")%string.
Proof.
  intros Ht. unfold line.
  destruct (Z.eqb_spec total 2) as [E | _]; [contradiction | reflexivity].
Qed.

(** C7: the style is a role: ['b-'] is LOW, ['r-'] is HIGH, ['g-'] is
    MID.  With exactly two series index 0 is LOW, index 1 is HIGH and
    no index is MID; otherwise, for [median = (total - 1) / 2], an index below
    [median - 0.5] is LOW, an index above [median + 0.5] is HIGH and any
    other index is MID; so of five series index 2 is MID, index 0 is LOW
    and index 4 is HIGH. *)
Theorem line_roles :
  line 0 2 = "b-"%string /\ line 1 2 = "r-"%string /\
  (forall i : Z, line i 2 <> "g-"%string) /\
  (forall i total : Z,
     total <> 2%Z ->
     let median := inject_Z (total - 1) / 2 in
     (inject_Z i < median - (1 # 2) -> line i total = "b-"%string) /\
     (median + (1 # 2) < inject_Z i -> line i total = "r-"%string) /\
     (~ inject_Z i < median - (1 # 2) -> ~ median + (1 # 2) < inject_Z i ->
      line i total = "g-"%string)) /\
  line 2 5 = "g-"%string /\ line 0 5 = "b-"%string /\ line 4 5 = "r-"%string.
Proof.
  split; [reflexivity |]. split; [reflexivity |].
  split.
  { intros i. unfold line. cbn [Z.eqb Pos.eqb].
    destruct (negb (i =? 0)%Z); discriminate. }
  split; [| repeat split; reflexivity].
  intros i total Ht median. rewrite (line_unfold i total Ht). fold median.
  split; [| split].
  - intros Hlow. apply Qltb_lt in Hlow. rewrite Hlow. reflexivity.
  - intros Hhigh.
    assert (Hnlow : ~ inject_Z i < median - (1 # 2)) by lra.
    apply Qltb_nlt in Hnlow. apply Qltb_lt in Hhigh.
    rewrite Hnlow, Hhigh. reflexivity.
  - intros Hnlow Hnhigh.
    apply Qltb_nlt in Hnlow. apply Qltb_nlt in Hnhigh.
    rewrite Hnlow, Hnhigh. reflexivity.
Qed.

Lemma line_roles_witness :
  line 0 4 = "b-"%string /\ line 3 4 = "r-"%string /\ line 1 4 = "g-"%string.
Proof.
  pose proof (proj1 (proj2 (proj2 (proj2 line_roles)))) as H.
  split; [| split].
  - apply (H 0%Z 4%Z); [discriminate | reflexivity].
  - apply (H 3%Z 4%Z); [discriminate | reflexivity].
  - apply (H 1%Z 4%Z); [discriminate | discriminate | discriminate].
Defined.

End LineRoles.

(** * Further properties *)

(** ** The prior parameterizer: errors, moments, feasibility *)

(** X1: with [mu = 0] or [sigma = 0] the prior parameterizer never
    returns a pair: it raises; for a mean in (0, 1) and [sigma = 0] the
    exception is [ZeroDivisionError]. *)
Theorem alpha_beta_zero (mu sigma : R) :
  mu = 0 \/ sigma = 0 ->
  (exists e : exn, alpha_beta mu sigma = Raise e) /\
  (0 < mu < 1 -> alpha_beta mu sigma = Raise ZeroDivisionError).
Proof.
  intros Hzero.
  pose proof (alpha_beta_raises mu sigma Hzero) as H.
  split.
  - exists ZeroDivisionError. exact H.
  - intros _. exact H.
Qed.

Lemma alpha_beta_zero_witness :
  (exists e : exn, alpha_beta (2 / 5) 0 = Raise e) /\
  (0 < 2 / 5 < 1 -> alpha_beta (2 / 5) 0 = Raise ZeroDivisionError).
Proof.
  apply (alpha_beta_zero (2 / 5) 0). right. reflexivity.
Defined.

Lemma alpha_plus_beta (mu sigma : R) :
  mu <> 0 -> sigma <> 0 ->
  alpha_of mu sigma + beta_of mu sigma = mu * (1 - mu) / sigma ^ 2 - 1.
Proof. intros Hmu Hs. unfold beta_of, alpha_of. field. split; assumption. Qed.

(** X2: the docstring's promise on the second moment: for a feasible
    prior the Beta distribution with the returned shapes has variance
    [sigma ^ 2]. *)
Theorem alpha_beta_variance (mu sigma : R) :
  0 < mu < 1 -> sigma <> 0 -> sigma ^ 2 < mu * (1 - mu) ->
  exists alpha beta : R,
    alpha_beta mu sigma = Ok (alpha, beta) /\
    beta_variance alpha beta = sigma ^ 2.
Proof.
  intros Hmu Hs Hvar.
  exists (alpha_of mu sigma), (beta_of mu sigma).
  split; [apply alpha_beta_returns; lra |].
  pose proof (sq_pos _ Hs) as Hs2.
  unfold beta_variance.
  rewrite (alpha_plus_beta mu sigma) by lra.
  rewrite alpha_of_margin, beta_of_margin by lra.
  set (s2 := sigma ^ 2) in *.
  assert (Hm : mu * (1 - mu) <> 0) by nra.
  field. repeat split; lra.
Qed.

Lemma alpha_beta_variance_witness :
  exists alpha beta : R,
    alpha_beta (2 / 5) (1 / 20) = Ok (alpha, beta) /\
    beta_variance alpha beta = (1 / 20) ^ 2.
Proof.
  apply (alpha_beta_variance (2 / 5) (1 / 20)); lra.
Defined.

(** X3: [alpha_beta] inverts the moments of a Beta distribution: from the
    mean [a / (a + b)] and a standard deviation whose square is the
    variance of Beta(a, b) it returns [(a, b)] again. *)
Theorem alpha_beta_of_moments (a b sigma : R) :
  0 < a -> 0 < b -> sigma ^ 2 = beta_variance a b ->
  alpha_beta (a / (a + b)) sigma = Ok (a, b).
Proof.
  intros Ha Hb Hvar.
  assert (Hab : 0 < a + b) by lra.
  assert (Hv : 0 < beta_variance a b).
  { unfold beta_variance. apply Rdiv_lt_0_compat; [nra |].
    apply Rmult_lt_0_compat; [apply sq_pos; lra | lra]. }
  assert (Hs : sigma <> 0).
  { intros ->. rewrite <- Hvar in Hv. simpl in Hv. lra. }
  assert (Hmu : a / (a + b) <> 0).
  { apply Rgt_not_eq. apply Rdiv_lt_0_compat; lra. }
  rewrite (alpha_beta_returns _ _ Hmu Hs).
  unfold beta_of, alpha_of. rewrite Hvar. unfold beta_variance.
  do 2 f_equal; field; repeat split; lra.
Qed.

Lemma alpha_beta_of_moments_witness :
  alpha_beta (38 / (38 + 57)) (1 / 20) = Ok (38, 57).
Proof.
  apply (alpha_beta_of_moments 38 57 (1 / 20)); [lra | lra |].
  unfold beta_variance. field.
Defined.

(** X4: for a mean in (0, 1) the returned shapes are positive exactly
    when the variance is feasible, and both are zero exactly on the
    boundary [sigma ^ 2 = mu * (1 - mu)]. *)
Theorem alpha_beta_sign (mu sigma alpha beta : R) :
  0 < mu < 1 ->
  alpha_beta mu sigma = Ok (alpha, beta) ->
  (0 < alpha <-> sigma ^ 2 < mu * (1 - mu)) /\
  (0 < beta <-> sigma ^ 2 < mu * (1 - mu)) /\
  (alpha = 0 <-> sigma ^ 2 = mu * (1 - mu)) /\
  (beta = 0 <-> sigma ^ 2 = mu * (1 - mu)).
Proof.
  intros Hmu H.
  apply alpha_beta_inv in H. destruct H as (Hmu0 & Hs & -> & ->).
  destruct (Rtotal_order (sigma ^ 2) (mu * (1 - mu))) as [Hlt | [Heq | Hgt]].
  - pose proof (alpha_of_pos mu sigma Hmu Hs Hlt).
    pose proof (beta_of_pos mu sigma Hmu Hs Hlt).
    repeat split; intros; lra.
  - assert (Ha : alpha_of mu sigma = 0).
    { rewrite alpha_of_margin by assumption. rewrite Heq. field. lra. }
    assert (Hb : beta_of mu sigma = 0).
    { rewrite beta_of_margin by assumption. rewrite Heq. field. lra. }
    repeat split; intros; lra.
  - pose proof (sq_pos _ Hs) as Hs2.
    assert (Ha : alpha_of mu sigma < 0).
    { rewrite alpha_of_margin by assumption.
      apply Rmult_lt_reg_r with (r := sigma ^ 2); [exact Hs2 |].
      unfold Rdiv. rewrite Rmult_assoc, Rinv_l by lra. nra. }
    assert (Hb : beta_of mu sigma < 0).
    { rewrite beta_of_margin by assumption.
      apply Rmult_lt_reg_r with (r := sigma ^ 2); [exact Hs2 |].
      unfold Rdiv. rewrite Rmult_assoc, Rinv_l by lra. nra. }
    repeat split; intros; lra.
Qed.

Lemma alpha_beta_sign_witness :
  (0 < 38 <-> (1 / 20) ^ 2 < 2 / 5 * (1 - 2 / 5)) /\
  (0 < 57 <-> (1 / 20) ^ 2 < 2 / 5 * (1 - 2 / 5)) /\
  (38 = 0 <-> (1 / 20) ^ 2 = 2 / 5 * (1 - 2 / 5)) /\
  (57 = 0 <-> (1 / 20) ^ 2 = 2 / 5 * (1 - 2 / 5)).
Proof.
  apply (alpha_beta_sign (2 / 5) (1 / 20) 38 57); [lra |].
  exact alpha_beta_defaults.
Defined.

(** X5: only the square of [sigma] is used: a negative standard
    deviation is accepted and gives what its absolute value gives. *)
Theorem alpha_beta_sigma_sign (mu sigma : R) :
  alpha_beta mu (- sigma) = alpha_beta mu sigma.
Proof.
  unfold alpha_beta.
  replace ((- sigma) ^ 2) with (sigma ^ 2) by ring. reflexivity.
Qed.

(** X6: for a mean in (0, 1), a tighter prior gives larger shapes: if
    [0 < s1 <= s2] then the shapes returned for [s2] are at most the
    shapes returned for [s1]. *)
Theorem alpha_beta_antitone_in_sigma (mu s1 s2 a1 b1 a2 b2 : R) :
  0 < mu < 1 -> 0 < s1 <= s2 ->
  alpha_beta mu s1 = Ok (a1, b1) -> alpha_beta mu s2 = Ok (a2, b2) ->
  a2 <= a1 /\ b2 <= b1.
Proof.
  intros Hmu Hs H1 H2.
  apply alpha_beta_inv in H1. destruct H1 as (_ & Hs1 & -> & ->).
  apply alpha_beta_inv in H2. destruct H2 as (_ & Hs2 & -> & ->).
  assert (Hsq : s1 ^ 2 <= s2 ^ 2) by nra.
  pose proof (sq_pos _ Hs1) as Hp1. pose proof (sq_pos _ Hs2) as Hp2.
  assert (Hinv : / s2 ^ 2 <= / s1 ^ 2) by (apply Rinv_le_contravar; lra).
  assert (Ea : forall s, s <> 0 ->
             alpha_of mu s = mu ^ 2 * (1 - mu) * / s ^ 2 - mu).
  { intros s Hs0. unfold alpha_of. field. split; [exact Hs0 | lra]. }
  assert (Eb : forall s, s <> 0 ->
             beta_of mu s = mu * (1 - mu) ^ 2 * / s ^ 2 - (1 - mu)).
  { intros s Hs0. unfold beta_of, alpha_of. field. split; [exact Hs0 | lra]. }
  rewrite !Ea, !Eb by assumption.
  assert (0 <= mu ^ 2 * (1 - mu)) by nra.
  assert (0 <= mu * (1 - mu) ^ 2) by nra.
  split; nra.
Qed.

Lemma alpha_beta_antitone_in_sigma_witness : 46 / 5 <= 38 /\ 69 / 5 <= 57.
Proof.
  apply (alpha_beta_antitone_in_sigma (2 / 5) (1 / 20) (1 / 10) 38 57 (46 / 5) (69 / 5));
    try lra.
  - exact alpha_beta_defaults.
  - rewrite alpha_beta_returns by lra.
    unfold beta_of, alpha_of. apply f_equal, f_equal2; field.
Defined.

(** ** The posterior estimator: errors, composition, what is evaluated *)

Section EstimatorFurther.

Variable beta_cdf : R -> R -> R -> R.

(** X7: an exception of the prior parameterizer is passed on as it is,
    before any distribution is evaluated, whatever the votes and the
    fractions are (the empty sequence included). *)
Theorem winning_probabilities_passes_error (mu sigma T f : R) (xs : list R)
    (e : exn) :
  alpha_beta mu sigma = Raise e ->
  run (winning_probabilities beta_cdf mu sigma T f xs) = (Raise e, []).
Proof.
  intros Hab. unfold run, winning_probabilities, bind at 1, lift.
  rewrite Hab. reflexivity.
Qed.

(** X8: the estimator treats the elements one by one: on a concatenation
    it returns the concatenation of the results and evaluates the
    distributions of the first part, then those of the second. *)
Theorem winning_probabilities_app (mu sigma T f : R) (xs ys ps qs : list R)
    (l1 l2 : list cdf_call) :
  run (winning_probabilities beta_cdf mu sigma T f xs) = (Ok ps, l1) ->
  run (winning_probabilities beta_cdf mu sigma T f ys) = (Ok qs, l2) ->
  run (winning_probabilities beta_cdf mu sigma T f (xs ++ ys))
  = (Ok (ps ++ qs), l1 ++ l2).
Proof.
  unfold run. intros Hx Hy.
  destruct (alpha_beta mu sigma) as [[alpha beta] | e] eqn:Hab.
  - rewrite (winning_probabilities_returns _ _ _ _ _ _ _ _ _ Hab) in Hx.
    rewrite (winning_probabilities_returns _ _ _ _ _ _ _ _ _ Hab) in Hy.
    rewrite (winning_probabilities_returns _ _ _ _ _ _ _ _ _ Hab).
    cbn [app] in *. rewrite !map_app.
    injection Hx as Hps Hl1. injection Hy as Hqs Hl2. subst. reflexivity.
  - rewrite (winning_probabilities_raises _ _ _ _ _ _ _ _ Hab) in Hx.
    discriminate.
Qed.

(** X9: every distribution the estimator evaluates is evaluated at one
    half and its two shapes add up to [alpha + beta + total_votes *
    fraction_counted]: the counted votes are shared between the two
    shapes, whatever the fraction in favour. *)
Theorem winning_probabilities_shapes_sum (mu sigma T f alpha beta : R)
    (xs : list R) :
  alpha_beta mu sigma = Ok (alpha, beta) ->
  Forall (fun c => shape_a c + shape_b c = alpha + beta + T * f /\
                   point c = 1 / 2)
         (snd (run (winning_probabilities beta_cdf mu sigma T f xs))).
Proof.
  intros Hab. unfold run.
  rewrite (winning_probabilities_returns _ _ _ _ _ _ _ _ _ Hab).
  cbn [snd app]. apply Forall_forall. intros c Hc.
  apply in_map_iff in Hc. destruct Hc as (x & <- & _).
  unfold posterior_call. cbn [shape_a shape_b point]. split; [ring | reflexivity].
Qed.

(** X10: on inputs of the data model (feasible prior, counted votes not
    negative, fractions in [0, 1]) every distribution evaluated is a
    Beta distribution proper: its shapes are at least those of the
    prior, which are positive. *)
Theorem winning_probabilities_shapes_positive (mu sigma T f : R) (xs : list R) :
  0 < mu < 1 -> sigma <> 0 -> sigma ^ 2 < mu * (1 - mu) ->
  0 <= T * f ->
  Forall (fun x => 0 <= x <= 1) xs ->
  exists alpha beta : R,
    alpha_beta mu sigma = Ok (alpha, beta) /\ 0 < alpha /\ 0 < beta /\
    Forall (fun c => alpha <= shape_a c /\ beta <= shape_b c)
           (snd (run (winning_probabilities beta_cdf mu sigma T f xs))).
Proof.
  intros Hmu Hs Hvar Hc Hxs.
  assert (Hab : alpha_beta mu sigma = Ok (alpha_of mu sigma, beta_of mu sigma))
    by (apply alpha_beta_returns; lra).
  exists (alpha_of mu sigma), (beta_of mu sigma).
  split; [exact Hab |].
  split; [apply alpha_of_pos; assumption |].
  split; [apply beta_of_pos; assumption |].
  unfold run. rewrite (winning_probabilities_returns _ _ _ _ _ _ _ _ _ Hab).
  cbn [snd app]. apply Forall_forall. intros c Hin.
  apply in_map_iff in Hin. destruct Hin as (x & <- & Hx).
  rewrite Forall_forall in Hxs. specialize (Hxs x Hx).
  unfold posterior_call. cbn [shape_a shape_b]. split; nra.
Qed.

End EstimatorFurther.

Lemma winning_probabilities_passes_error_witness :
  run (winning_probabilities two_point_cdf 0 (1 / 20) 100000 (1 / 100) [])
  = (Raise ZeroDivisionError, []).
Proof.
  apply (winning_probabilities_passes_error two_point_cdf
           0 (1 / 20) 100000 (1 / 100) [] ZeroDivisionError).
  apply alpha_beta_raises. left. reflexivity.
Defined.

Lemma winning_probabilities_app_witness :
  run (winning_probabilities two_point_cdf (2 / 5) (1 / 20) 100000 0 ([2 / 5] ++ [3 / 5]))
  = (Ok ([1 - two_point_cdf 38 57 (1 / 2)] ++ [1 - two_point_cdf 38 57 (1 / 2)]),
     [CdfCall 38 57 (1 / 2)] ++ [CdfCall 38 57 (1 / 2)]).
Proof.
  assert (H : forall x, run (winning_probabilities two_point_cdf
                               (2 / 5) (1 / 20) 100000 0 [x])
                        = (Ok [1 - two_point_cdf 38 57 (1 / 2)],
                           [CdfCall 38 57 (1 / 2)])).
  { intros x. unfold run.
    rewrite (winning_probabilities_returns _ _ _ _ _ _ _ _ _ alpha_beta_defaults).
    replace (100000 * 0) with 0 by ring. cbn [map app].
    rewrite posterior_win_zero, posterior_call_zero. reflexivity. }
  apply (winning_probabilities_app two_point_cdf (2 / 5) (1 / 20) 100000 0
           [2 / 5] [3 / 5]); apply H.
Defined.

Lemma winning_probabilities_shapes_sum_witness :
  Forall (fun c => shape_a c + shape_b c = 38 + 57 + 100000 * (1 / 100) /\
                   point c = 1 / 2)
         (snd (run (winning_probabilities two_point_cdf (2 / 5) (1 / 20)
                      100000 (1 / 100) [2 / 5; 3 / 5]))).
Proof.
  apply (winning_probabilities_shapes_sum two_point_cdf
           (2 / 5) (1 / 20) 100000 (1 / 100) 38 57 [2 / 5; 3 / 5]).
  exact alpha_beta_defaults.
Defined.

Lemma winning_probabilities_shapes_positive_witness :
  exists alpha beta : R,
    alpha_beta (2 / 5) (1 / 20) = Ok (alpha, beta) /\ 0 < alpha /\ 0 < beta /\
    Forall (fun c => alpha <= shape_a c /\ beta <= shape_b c)
           (snd (run (winning_probabilities two_point_cdf (2 / 5) (1 / 20)
                        100000 (1 / 100) [2 / 5; 3 / 5]))).
Proof.
  apply (winning_probabilities_shapes_positive two_point_cdf
           (2 / 5) (1 / 20) 100000 (1 / 100) [2 / 5; 3 / 5]); try lra.
  repeat constructor; lra.
Defined.

(** ** The two candidates *)

Lemma alpha_of_opponent (mu sigma : R) :
  mu <> 0 -> mu <> 1 -> sigma <> 0 ->
  alpha_of (1 - mu) sigma = beta_of mu sigma.
Proof.
  intros H0 H1 Hs. unfold beta_of, alpha_of. field. repeat split; lra.
Qed.

Lemma beta_of_opponent (mu sigma : R) :
  mu <> 0 -> mu <> 1 -> sigma <> 0 ->
  beta_of (1 - mu) sigma = alpha_of mu sigma.
Proof.
  intros H0 H1 Hs. unfold beta_of, alpha_of. field. repeat split; lra.
Qed.

Section Opponent.

Variable beta_cdf : R -> R -> R -> R.
Hypothesis reflect : cdf_half_reflect beta_cdf.

Lemma posterior_win_opponent (a b c x : R) :
  0 < a -> 0 < b -> 0 <= c -> 0 <= x <= 1 ->
  posterior_win beta_cdf b a c (1 - x) = 1 - posterior_win beta_cdf a b c x.
Proof.
  intros Ha Hb Hc Hx. unfold posterior_win.
  replace (b + c * (1 - x)) with (b + (c - c * x)) by ring.
  replace (a + (c - c * (1 - x))) with (a + c * x) by ring.
  rewrite reflect by nra. ring.
Qed.

(** X11: the opponent's view.  On inputs of the data model, asking for
    the opponent (mean [1 - mu], fractions [1 - x]) gives the complement
    [1 - p] of every probability, given that the Beta distribution
    function reflects when its shapes are exchanged. *)
Theorem winning_probabilities_opponent (mu sigma T f : R) (xs : list R) :
  0 < mu < 1 -> sigma <> 0 -> sigma ^ 2 < mu * (1 - mu) ->
  0 <= T * f ->
  Forall (fun x => 0 <= x <= 1) xs ->
  exists ps : list R,
    fst (run (winning_probabilities beta_cdf mu sigma T f xs)) = Ok ps /\
    fst (run (winning_probabilities beta_cdf (1 - mu) sigma T f
                (map (fun x => 1 - x) xs)))
    = Ok (map (fun p => 1 - p) ps).
Proof.
  intros Hmu Hs Hvar Hc Hxs.
  pose proof (alpha_of_pos mu sigma Hmu Hs Hvar) as Ha.
  pose proof (beta_of_pos mu sigma Hmu Hs Hvar) as Hb.
  assert (Hab : alpha_beta mu sigma = Ok (alpha_of mu sigma, beta_of mu sigma))
    by (apply alpha_beta_returns; lra).
  assert (Hab' : alpha_beta (1 - mu) sigma = Ok (beta_of mu sigma, alpha_of mu sigma)).
  { rewrite alpha_beta_returns by lra.
    rewrite alpha_of_opponent, beta_of_opponent by lra. reflexivity. }
  exists (map (posterior_win beta_cdf (alpha_of mu sigma) (beta_of mu sigma) (T * f)) xs).
  unfold run.
  rewrite (winning_probabilities_returns _ _ _ _ _ _ _ _ _ Hab).
  rewrite (winning_probabilities_returns _ _ _ _ _ _ _ _ _ Hab').
  split; [reflexivity |]. cbn [fst]. f_equal.
  rewrite !map_map. apply map_ext_in. intros x Hx.
  rewrite Forall_forall in Hxs.
  apply posterior_win_opponent; auto.
Qed.

(** X12: a dead heat.  With the symmetric prior [mu = 1/2] and the
    counted votes split evenly the probability of winning is one half,
    whatever the spread of the prior and the number of votes counted. *)
Theorem winning_probabilities_even (sigma T f : R) :
  sigma <> 0 -> sigma ^ 2 < 1 / 4 -> 0 <= T * f ->
  fst (run (winning_probabilities beta_cdf (1 / 2) sigma T f [1 / 2]))
  = Ok [1 / 2].
Proof.
  intros Hs Hvar Hc.
  assert (Hmu : 0 < 1 / 2 < 1) by lra.
  assert (Hvar' : sigma ^ 2 < 1 / 2 * (1 - 1 / 2)) by lra.
  pose proof (alpha_of_pos _ sigma Hmu Hs Hvar') as Ha.
  assert (Hab : alpha_beta (1 / 2) sigma
                = Ok (alpha_of (1 / 2) sigma, alpha_of (1 / 2) sigma)).
  { rewrite alpha_beta_returns by lra. unfold beta_of.
    replace (1 / (1 / 2) - 1) with 1 by field.
    rewrite Rmult_1_r. reflexivity. }
  unfold run. rewrite (winning_probabilities_returns _ _ _ _ _ _ _ _ _ Hab).
  cbn [fst map]. do 2 f_equal.
  set (a := alpha_of (1 / 2) sigma) in *. set (c := T * f) in *.
  pose proof (posterior_win_opponent a a c (1 / 2)) as H.
  replace (1 - 1 / 2) with (1 / 2) in H by lra.
  assert (H' : posterior_win beta_cdf a a c (1 / 2)
               = 1 - posterior_win beta_cdf a a c (1 / 2))
    by (apply H; lra).
  lra.
Qed.

End Opponent.

Lemma two_point_cdf_half_reflect : cdf_half_reflect two_point_cdf.
Proof.
  intros a b Ha Hb. rewrite !two_point_cdf_half. field. lra.
Qed.

Lemma winning_probabilities_opponent_witness :
  exists ps : list R,
    fst (run (winning_probabilities two_point_cdf (2 / 5) (1 / 20) 100000 (1 / 100)
                [2 / 5; 3 / 5])) = Ok ps /\
    fst (run (winning_probabilities two_point_cdf (1 - 2 / 5) (1 / 20) 100000 (1 / 100)
                (map (fun x => 1 - x) [2 / 5; 3 / 5])))
    = Ok (map (fun p => 1 - p) ps).
Proof.
  apply (winning_probabilities_opponent two_point_cdf two_point_cdf_half_reflect
           (2 / 5) (1 / 20) 100000 (1 / 100) [2 / 5; 3 / 5]); try lra.
  repeat constructor; lra.
Defined.

Lemma winning_probabilities_even_witness :
  fst (run (winning_probabilities two_point_cdf (1 / 2) (1 / 20) 100000 (1 / 100)
              [1 / 2]))
  = Ok [1 / 2].
Proof.
  apply (winning_probabilities_even two_point_cdf two_point_cdf_half_reflect
           (1 / 20) 100000 (1 / 100)); lra.
Defined.

(** ** The line style helper on integers *)

Section LineIntegers.

Import Style.

Lemma below_median (i total : Z) :
  (inject_Z i < inject_Z (total - 1) / 2 - (1 # 2))%Q <-> (2 * i < total - 2)%Z.
Proof.
  unfold Qlt, Qminus, Qplus, Qopp, Qdiv, Qmult, Qinv, inject_Z.
  cbn [Qnum Qden]. lia.
Qed.

Lemma above_median (i total : Z) :
  (inject_Z (total - 1) / 2 + (1 # 2) < inject_Z i)%Q <-> (total < 2 * i)%Z.
Proof.
  unfold Qlt, Qminus, Qplus, Qopp, Qdiv, Qmult, Qinv, inject_Z.
  cbn [Qnum Qden]. lia.
Qed.

(** [line] away from two series, by integer comparisons. *)
Lemma line_cases (i total : Z) :
  total <> 2%Z ->
  line i total =
    (if (2 * i <? total - 2)%Z then "b-"
     else if (total <? 2 * i)%Z then "r-" else "g-")%string.
Proof.
  intros Ht. rewrite (line_unfold i total Ht).
  destruct (Z.ltb_spec (2 * i) (total - 2)) as [Hlow | Hlow].
  - apply below_median in Hlow. apply Qltb_lt in Hlow. rewrite Hlow. reflexivity.
  - assert (Hn : ~ (inject_Z i < inject_Z (total - 1) / 2 - (1 # 2))%Q)
      by (rewrite below_median; lia).
    apply Qltb_nlt in Hn. rewrite Hn.
    destruct (Z.ltb_spec total (2 * i)) as [Hhigh | Hhigh].
    + apply above_median in Hhigh. apply Qltb_lt in Hhigh. rewrite Hhigh. reflexivity.
    + assert (Hn' : ~ (inject_Z (total - 1) / 2 + (1 # 2) < inject_Z i)%Q)
        by (rewrite above_median; lia).
      apply Qltb_nlt in Hn'. rewrite Hn'. reflexivity.
Qed.

Lemma line_two (i : Z) :
  line i 2 = (if (i =? 0)%Z then "b-" else "r-")%string.
Proof. unfold line. cbn [Z.eqb Pos.eqb]. destruct (i =? 0)%Z; reflexivity. Qed.

Ltac line_by_cases :=
  repeat match goal with
         | |- context [(?a <? ?b)%Z] => destruct (Z.ltb_spec a b)
         | |- context [(?a =? ?b)%Z] => destruct (Z.eqb_spec a b)
         end;
  cbn -[Z.mul Z.sub Z.div]; try split; intros;
  try reflexivity; try congruence; try lia.

(** X13: away from two series the style is decided by integer
    comparisons: ['b-'] exactly for [2 i < total - 2], ['r-'] exactly
    for [2 i > total], ['g-'] exactly in between. *)
Theorem line_integer_cases (i total : Z) :
  total <> 2%Z ->
  (line i total = "b-"%string <-> (2 * i < total - 2)%Z) /\
  (line i total = "r-"%string <-> (total < 2 * i)%Z) /\
  (line i total = "g-"%string <-> (total - 2 <= 2 * i <= total)%Z).
Proof.
  intros Ht. rewrite (line_cases i total Ht).
  split; [| split]; line_by_cases.
Qed.

(** X14: away from two series the neutral style goes to the middle index
    of an odd number of series and to the two middle indices of an even
    number: ['g-'] is returned exactly for [i = (total - 1) // 2] and
    [i = total // 2]. *)
Theorem line_mid_indices (i total : Z) :
  total <> 2%Z ->
  line i total = "g-"%string <-> i = ((total - 1) / 2)%Z \/ i = (total / 2)%Z.
Proof.
  intros Ht. rewrite (line_cases i total Ht).
  pose proof (Z.div_mod (total - 1) 2 ltac:(lia)) as E1.
  pose proof (Z.mod_pos_bound (total - 1) 2 ltac:(lia)) as B1.
  pose proof (Z.div_mod total 2 ltac:(lia)) as E2.
  pose proof (Z.mod_pos_bound total 2 ltac:(lia)) as B2.
  split.
  - line_by_cases.
  - intros H. line_by_cases.
Qed.

(** X15: the styles are symmetric about the middle: for an index of the
    series, [0 <= i < total], the mirrored index [total - 1 - i] has the
    mirrored style (['b-'] and ['r-'] exchanged, ['g-'] kept). *)
Theorem line_mirror (i total : Z) :
  (0 <= i < total)%Z ->
  line (total - 1 - i) total = flip_style (line i total).
Proof.
  intros Hi. destruct (Z.eq_dec total 2) as [-> | Ht].
  - rewrite !line_two. line_by_cases.
  - rewrite !(line_cases _ total Ht). line_by_cases.
Qed.

(** X16: along the indices of the series the styles never go back: for
    [0 <= i <= j] the style at [i] comes no later than the style at [j]
    in the order ['b-'], ['g-'], ['r-']. *)
Theorem line_sorted (i j total : Z) :
  (0 <= i <= j)%Z ->
  (style_rank (line i total) <= style_rank (line j total))%Z.
Proof.
  intros Hij. destruct (Z.eq_dec total 2) as [-> | Ht].
  - rewrite !line_two. line_by_cases.
  - rewrite !(line_cases _ total Ht). line_by_cases.
Qed.

Lemma line_integer_cases_witness :
  (line 1 6 = "b-"%string <-> (2 * 1 < 6 - 2)%Z) /\
  (line 1 6 = "r-"%string <-> (6 < 2 * 1)%Z) /\
  (line 1 6 = "g-"%string <-> (6 - 2 <= 2 * 1 <= 6)%Z).
Proof. apply (line_integer_cases 1 6). discriminate. Defined.

Lemma line_mid_indices_witness :
  line 3 6 = "g-"%string <-> 3%Z = ((6 - 1) / 2)%Z \/ 3%Z = (6 / 2)%Z.
Proof. apply (line_mid_indices 3 6). discriminate. Defined.

Lemma line_mirror_witness :
  line (9 - 1 - 1) 9 = flip_style (line 1 9).
Proof. apply (line_mirror 1 9). lia. Defined.

Lemma line_sorted_witness :
  (style_rank (line 3 9) <= style_rank (line 4 9))%Z.
Proof. apply (line_sorted 3 4 9). lia. Defined.

End LineIntegers.

(** ** The sweep drivers *)

Section SweepLoop.

Variable est : R -> M (list R).
Variable xs : list R.
Variable n : Z.

(** What [est] returns and evaluates where it returns. *)
Variable ys : R -> list R.
Variable calls : R -> list cdf_call.

Local Abbreviation returns_at := (returns_at est ys calls).
Local Abbreviation raises_with := (raises_with est).
Local Abbreviation body := (sweep_body est xs n).
Local Abbreviation line_of := (line_of xs n ys).

Lemma loop_returns (vals : list R) :
  Forall returns_at vals ->
  forall (i : Z) (handles : list line2d) (w : world),
    io_for_each (enumerate_from i vals) body handles w
    = (Ok (handles ++ map line_of (enumerate_from i vals)),
       World (evaluated w ++ concat (map calls vals))
             (drawn w ++ map PltPlot (map line_of (enumerate_from i vals)))).
Proof.
  induction 1 as [| v vals Hv _ IH]; intros i handles w.
  - cbn. rewrite !app_nil_r. destruct w. reflexivity.
  - cbn [enumerate_from io_for_each map concat].
    unfold io_bind at 1. unfold sweep_body at 1.
    unfold io_bind at 1, io_lift. rewrite Hv.
    unfold io_bind at 1, pyplot_plot, io_ret at 1. cbn [evaluated drawn].
    rewrite IH. cbn [evaluated drawn line_of].
    rewrite <- !app_assoc. reflexivity.
Qed.

Lemma loop_raises (e : exn) (good rest : list R) (v : R) :
  Forall returns_at good -> raises_with e v ->
  forall (i : Z) (handles : list line2d) (w : world),
    io_for_each (enumerate_from i (good ++ v :: rest)) body handles w
    = (Raise e,
       World (evaluated w ++ concat (map calls good))
             (drawn w ++ map PltPlot (map line_of (enumerate_from i good)))).
Proof.
  intros Hgood Hv. induction Hgood as [| g good Hg _ IH]; intros i handles w.
  - cbn [app enumerate_from io_for_each map concat].
    unfold io_bind at 1. unfold sweep_body at 1.
    unfold io_bind at 1, io_lift. rewrite Hv.
    rewrite !app_nil_r. destruct w. reflexivity.
  - cbn [app enumerate_from io_for_each map concat].
    unfold io_bind at 1. unfold sweep_body at 1.
    unfold io_bind at 1, io_lift. rewrite Hg.
    unfold io_bind at 1, pyplot_plot, io_ret at 1. cbn [evaluated drawn].
    rewrite IH. cbn [evaluated drawn line_of].
    rewrite <- !app_assoc. reflexivity.
Qed.

End SweepLoop.

Lemma sweep_returns (est : R -> M (list R)) (ys : R -> list R)
    (calls : R -> list cdf_call) (title loc : string) (figure_num : Z)
    (values xs : list R) :
  Forall (returns_at est ys calls) values ->
  io_run (sweep est title loc figure_num values xs)
  = (Ok tt,
     World (concat (map calls values))
           ([PltFigure figure_num; PltTitle title;
             PltXlabel "Percentage of counted votes in favor";
             PltYlabel "Probability of winning"]
            ++ map PltPlot (map (line_of xs (len values) ys) (enumerate values))
            ++ [PltLegend (map (line_of xs (len values) ys) (enumerate values)) loc])).
Proof.
  intros Hall. unfold io_run, sweep.
  repeat (unfold io_bind at 1, pyplot at 1; cbn [evaluated drawn app]).
  unfold io_bind at 1.
  change (fun (handles : list line2d) '(i, v) =>
            (winning_ps <- io_lift (est v) ;;
             h <- pyplot_plot xs winning_ps (Style.line i (len values)) v ;;
             io_ret (handles ++ [h]))%IO)
    with (sweep_body est xs (len values)).
  unfold enumerate.
  rewrite (loop_returns est xs (len values) ys calls values Hall).
  unfold pyplot. cbn [evaluated drawn app]. rewrite <- ?app_assoc. reflexivity.
Qed.

Lemma sweep_raises (est : R -> M (list R)) (ys : R -> list R)
    (calls : R -> list cdf_call) (title loc : string) (figure_num : Z)
    (e : exn) (good rest : list R) (v : R) (xs : list R) :
  Forall (returns_at est ys calls) good -> raises_with est e v ->
  io_run (sweep est title loc figure_num (good ++ v :: rest) xs)
  = (Raise e,
     World (concat (map calls good))
           ([PltFigure figure_num; PltTitle title;
             PltXlabel "Percentage of counted votes in favor";
             PltYlabel "Probability of winning"]
            ++ map PltPlot (map (line_of xs (len (good ++ v :: rest)) ys)
                                (enumerate good)))).
Proof.
  intros Hgood Hv. unfold io_run, sweep.
  repeat (unfold io_bind at 1, pyplot at 1; cbn [evaluated drawn app]).
  unfold io_bind at 1.
  change (fun (handles : list line2d) '(i, v0) =>
            (winning_ps <- io_lift (est v0) ;;
             h <- pyplot_plot xs winning_ps
                    (Style.line i (len (good ++ v :: rest))) v0 ;;
             io_ret (handles ++ [h]))%IO)
    with (sweep_body est xs (len (good ++ v :: rest))).
  unfold enumerate.
  rewrite (loop_raises est xs (len (good ++ v :: rest)) ys calls e good rest v Hgood Hv).
  reflexivity.
Qed.

Section DriverProperties.

Variable beta_cdf : R -> R -> R -> R.

Lemma varying_is_sweep (ax : axis) (figure_num : Z) (values : list R)
    (mu sigma T f : R) (xs : list R) :
  varying beta_cdf ax figure_num values mu sigma T f xs
  = sweep (estimator_at beta_cdf ax mu sigma T f xs)
          (axis_title ax) (axis_loc ax) figure_num values xs.
Proof. destruct ax; reflexivity. Qed.

Lemma estimator_returns (ax : axis) (mu sigma T f : R) (xs : list R) (v : R) :
  ~ raises_at ax mu sigma v ->
  returns_at (estimator_at beta_cdf ax mu sigma T f xs)
             (curve_ys beta_cdf ax mu sigma T f xs)
             (curve_calls ax mu sigma T f xs) v.
Proof.
  intros Hv log. unfold estimator_at, curve_ys, curve_calls.
  apply winning_probabilities_returns. apply alpha_beta_returns.
  - intros E. apply Hv. left. exact E.
  - intros E. apply Hv. right. exact E.
Qed.

Lemma estimator_raises (ax : axis) (mu sigma T f : R) (xs : list R) (v : R) :
  raises_at ax mu sigma v ->
  raises_with (estimator_at beta_cdf ax mu sigma T f xs) ZeroDivisionError v.
Proof.
  intros Hv log. unfold estimator_at.
  apply winning_probabilities_raises. apply alpha_beta_raises. exact Hv.
Qed.

Lemma all_return (ax : axis) (mu sigma T f : R) (xs values : list R) :
  Forall (fun v => ~ raises_at ax mu sigma v) values ->
  Forall (returns_at (estimator_at beta_cdf ax mu sigma T f xs)
                     (curve_ys beta_cdf ax mu sigma T f xs)
                     (curve_calls ax mu sigma T f xs)) values.
Proof.
  intros H. eapply Forall_impl; [| exact H].
  intros v Hv. apply estimator_returns. exact Hv.
Qed.

Lemma raises_at_dec (ax : axis) (mu sigma v : R) :
  {raises_at ax mu sigma v} + {~ raises_at ax mu sigma v}.
Proof.
  unfold raises_at.
  destruct (Req_dec_T (mu_at ax v mu) 0) as [E | N]; [left; left; exact E |].
  destruct (Req_dec_T (sigma_at ax v sigma) 0) as [E | N']; [left; right; exact E |].
  right. intros [E | E]; contradiction.
Qed.

(** A list of swept values either never makes [alpha_beta] raise or has
    a first value that does. *)
Lemma first_raise (ax : axis) (mu sigma : R) (values : list R) :
  Forall (fun v => ~ raises_at ax mu sigma v) values \/
  exists (good : list R) (v : R) (rest : list R),
    values = good ++ v :: rest /\
    Forall (fun v => ~ raises_at ax mu sigma v) good /\
    raises_at ax mu sigma v.
Proof.
  induction values as [| v values IH].
  - left. constructor.
  - destruct (raises_at_dec ax mu sigma v) as [Hv | Hv].
    + right. exists [], v, values. repeat split; [constructor | exact Hv].
    + destruct IH as [Hall | (good & b & rest & -> & Hgood & Hb)].
      * left. constructor; assumption.
      * right. exists (v :: good), b, rest.
        repeat split; [constructor; assumption | exact Hb].
Qed.

(** X17: when no swept value makes [alpha_beta] raise, a driver returns
    after drawing, in this order: the figure, its title and axis labels,
    one curve per swept value in the order of the values (over the grid
    [xs], holding the estimator's probabilities, styled by [line] from
    its index and the number of values, labelled by the value), and the
    legend of exactly these curves; it evaluates the distributions of
    the first value, then those of the second, and so on. *)
Theorem varying_returns (ax : axis) (figure_num : Z) (values : list R)
    (mu sigma T f : R) (xs : list R) :
  Forall (fun v => ~ raises_at ax mu sigma v) values ->
  io_run (varying beta_cdf ax figure_num values mu sigma T f xs)
  = (Ok tt,
     World (concat (map (curve_calls ax mu sigma T f xs) values))
           (header ax figure_num
            ++ map PltPlot (map (curve beta_cdf ax (len values) mu sigma T f xs)
                                (enumerate values))
            ++ [PltLegend (map (curve beta_cdf ax (len values) mu sigma T f xs)
                               (enumerate values))
                          (axis_loc ax)])).
Proof.
  intros Hall. rewrite varying_is_sweep.
  rewrite (sweep_returns _ _ _ _ _ _ _ _ (all_return ax mu sigma T f xs values Hall)).
  reflexivity.
Qed.

(** X18: when a swept value makes [alpha_beta] raise, a driver raises
    [ZeroDivisionError] at the first such value: the curves of the values
    before it have been drawn, styled for the full number of values,
    nothing has been evaluated for it or for the values after it, and
    the legend is missing. *)
Theorem varying_raises (ax : axis) (figure_num : Z) (good rest : list R) (v : R)
    (mu sigma T f : R) (xs : list R) :
  Forall (fun v => ~ raises_at ax mu sigma v) good ->
  raises_at ax mu sigma v ->
  io_run (varying beta_cdf ax figure_num (good ++ v :: rest) mu sigma T f xs)
  = (Raise ZeroDivisionError,
     World (concat (map (curve_calls ax mu sigma T f xs) good))
           (header ax figure_num
            ++ map PltPlot
                 (map (curve beta_cdf ax (len (good ++ v :: rest)) mu sigma T f xs)
                      (enumerate good)))).
Proof.
  intros Hgood Hv. rewrite varying_is_sweep.
  rewrite (sweep_raises _ _ _ _ _ _ _ _ _ _ _
             (all_return ax mu sigma T f xs good Hgood)
             (estimator_raises ax mu sigma T f xs v Hv)).
  reflexivity.
Qed.

(** X19: when some swept value makes [alpha_beta] raise, the driver does
    not return: it raises, and the legend is never drawn. *)
Theorem varying_failure (ax : axis) (figure_num : Z) (values : list R)
    (mu sigma T f : R) (xs : list R) :
  Exists (raises_at ax mu sigma) values ->
  (exists e : exn,
     fst (io_run (varying beta_cdf ax figure_num values mu sigma T f xs)) = Raise e) /\
  (forall (handles : list line2d) (loc : string),
     ~ In (PltLegend handles loc)
          (drawn (snd (io_run (varying beta_cdf ax figure_num values mu sigma T f xs))))).
Proof.
  intros Hex. rewrite varying_is_sweep.
  destruct (first_raise ax mu sigma values)
    as [Hall | (good & v & rest & -> & Hgood & Hv)].
  - apply Exists_exists in Hex. destruct Hex as (v & Hin & Hv).
    rewrite Forall_forall in Hall. exfalso. exact (Hall v Hin Hv).
  - rewrite (sweep_raises _ _ _ _ _ _ _ _ _ _ _
               (all_return ax mu sigma T f xs good Hgood)
               (estimator_raises ax mu sigma T f xs v Hv)).
    cbn [fst snd drawn]. split.
    + exists ZeroDivisionError. reflexivity.
    + intros handles loc Hin. apply in_app_or in Hin. destruct Hin as [Hin | Hin].
      * cbn in Hin. destruct Hin as [H | [H | [H | [H | []]]]]; discriminate.
      * apply in_map_iff in Hin. destruct Hin as (l & H & _). discriminate.
Qed.

Lemma curves_fit (ax : axis) (n : Z) (mu sigma T f : R) (xs : list R)
    (ivs : list (Z * R)) :
  Forall (fits xs) (map PltPlot (map (curve beta_cdf ax n mu sigma T f xs) ivs)).
Proof.
  apply Forall_forall. intros c Hc.
  apply in_map_iff in Hc. destruct Hc as (l & <- & Hl).
  apply in_map_iff in Hl. destruct Hl as ([i v] & <- & _).
  cbn. split; [reflexivity |]. unfold curve_ys. apply length_map.
Qed.

Lemma header_fits (ax : axis) (figure_num : Z) (xs : list R) :
  Forall (fits xs) (header ax figure_num).
Proof. repeat constructor. Qed.

(** X20: whatever the inputs, and whether the driver returns or raises,
    every curve handed to [plot] is over the grid [fractions_in_favor]
    and has as many probabilities as the grid has points. *)
Theorem varying_fits (ax : axis) (figure_num : Z) (values : list R)
    (mu sigma T f : R) (xs : list R) :
  Forall (fits xs)
         (drawn (snd (io_run (varying beta_cdf ax figure_num values mu sigma T f xs)))).
Proof.
  rewrite varying_is_sweep.
  destruct (first_raise ax mu sigma values)
    as [Hall | (good & v & rest & -> & Hgood & Hv)].
  - rewrite (sweep_returns _ _ _ _ _ _ _ _ (all_return ax mu sigma T f xs values Hall)).
    cbn [snd drawn].
    change [PltFigure figure_num; PltTitle (axis_title ax);
            PltXlabel "Percentage of counted votes in favor";
            PltYlabel "Probability of winning"]
      with (header ax figure_num).
    apply Forall_app. split; [apply header_fits |].
    apply Forall_app. split; [apply (curves_fit ax) |].
    repeat constructor.
  - rewrite (sweep_raises _ _ _ _ _ _ _ _ _ _ _
               (all_return ax mu sigma T f xs good Hgood)
               (estimator_raises ax mu sigma T f xs v Hv)).
    cbn [snd drawn].
    change [PltFigure figure_num; PltTitle (axis_title ax);
            PltXlabel "Percentage of counted votes in favor";
            PltYlabel "Probability of winning"]
      with (header ax figure_num).
    apply Forall_app. split; [apply header_fits |].
    apply (curves_fit ax).
Qed.

End DriverProperties.

Lemma varying_returns_witness :
  io_run (varying_mu two_point_cdf 0 [2 / 5; 1 / 2] (1 / 20) 100000 (1 / 100) [1 / 2])
  = (Ok tt,
     World (concat (map (curve_calls Mu (2 / 5) (1 / 20) 100000 (1 / 100) [1 / 2])
                        [2 / 5; 1 / 2]))
           (header Mu 0
            ++ map PltPlot
                 (map (curve two_point_cdf Mu (len [2 / 5; 1 / 2])
                             (2 / 5) (1 / 20) 100000 (1 / 100) [1 / 2])
                      (enumerate [2 / 5; 1 / 2]))
            ++ [PltLegend
                  (map (curve two_point_cdf Mu (len [2 / 5; 1 / 2])
                              (2 / 5) (1 / 20) 100000 (1 / 100) [1 / 2])
                       (enumerate [2 / 5; 1 / 2]))
                  (axis_loc Mu)])).
Proof.
  apply (varying_returns two_point_cdf Mu 0 [2 / 5; 1 / 2]
           (2 / 5) (1 / 20) 100000 (1 / 100) [1 / 2]).
  repeat constructor; intros [H | H]; cbn in H; lra.
Defined.

Lemma varying_failure_witness :
  (exists e : exn,
     fst (io_run (varying_total_votes two_point_cdf 2 0 (1 / 20) [10000; 100000]
                    (1 / 100) [1 / 2])) = Raise e) /\
  (forall (handles : list line2d) (loc : string),
     ~ In (PltLegend handles loc)
          (drawn (snd (io_run (varying_total_votes two_point_cdf 2 0 (1 / 20)
                                 [10000; 100000] (1 / 100) [1 / 2]))))).
Proof.
  apply (varying_failure two_point_cdf TotalVotes 2 [10000; 100000]
           0 (1 / 20) 100000 (1 / 100) [1 / 2]).
  left. left. reflexivity.
Defined.

Lemma varying_raises_witness :
  io_run (varying_sigma two_point_cdf 1 (2 / 5) ([1 / 20] ++ 0 :: [1 / 10])
            100000 (1 / 100) [1 / 2])
  = (Raise ZeroDivisionError,
     World (concat (map (curve_calls Sigma (2 / 5) (1 / 20) 100000 (1 / 100) [1 / 2])
                        [1 / 20]))
           (header Sigma 1
            ++ map PltPlot
                 (map (curve two_point_cdf Sigma (len ([1 / 20] ++ 0 :: [1 / 10]))
                             (2 / 5) (1 / 20) 100000 (1 / 100) [1 / 2])
                      (enumerate [1 / 20])))).
Proof.
  apply (varying_raises two_point_cdf Sigma 1 [1 / 20] [1 / 10] 0
           (2 / 5) (1 / 20) 100000 (1 / 100) [1 / 2]).
  - repeat constructor; intros [H | H]; cbn in H; lra.
  - right. reflexivity.
Defined.

(** * The Beta distribution function *)

(** ** Integrals and limits *)

Lemma integral_eq (f : R -> R) (u v : R) (pr : Riemann_integrable f u v) :
  integral f u v = RiemannInt pr.
Proof.
  unfold integral.
  assert (H : exists I, exists pr' : Riemann_integrable f u v, RiemannInt pr' = I)
    by (exists (RiemannInt pr), pr; reflexivity).
  destruct (epsilon_spec (inhabits 0) _ H) as [pr' <-].
  apply RiemannInt_P5.
Qed.

Lemma limit_eq (U : nat -> R) (l : R) : Un_cv U l -> limit U = l.
Proof.
  intros H. unfold limit.
  assert (Hex : exists l', Un_cv U l') by (exists l; exact H).
  pose proof (epsilon_spec (inhabits 0) _ Hex) as H'.
  exact (UL_sequence _ _ _ H' H).
Qed.

(** ** The density: continuity, integrability, sign *)

Lemma Rpower_continuity (y t : R) : 0 < t -> continuity_pt (fun s => Rpower s y) t.
Proof.
  intros Ht. apply derivable_continuous_pt.
  exists (y * Rpower t (y - 1)). apply derivable_pt_lim_power. exact Ht.
Qed.

Lemma beta_kernel_continuity (a b t : R) :
  0 < t < 1 -> continuity_pt (beta_kernel a b) t.
Proof.
  intros [H0 H1].
  change (beta_kernel a b)
    with ((fun s => Rpower s (a - 1))
          * (comp (fun s => Rpower s (b - 1)) (fun s => (1 - s)%R)))%F.
  apply continuity_pt_mult.
  - apply Rpower_continuity. exact H0.
  - apply continuity_pt_comp.
    + change (fun s => 1 - s) with (fct_cte 1 - id)%F.
      apply continuity_pt_minus.
      * apply continuity_pt_const. intros x y. reflexivity.
      * apply derivable_continuous_pt. apply derivable_pt_id.
    + apply Rpower_continuity. lra.
Qed.

Lemma beta_kernel_integrable (a b u v : R) :
  0 < u -> u <= v -> v < 1 -> Riemann_integrable (beta_kernel a b) u v.
Proof.
  intros Hu Huv Hv. apply continuity_implies_RiemannInt; [exact Huv |].
  intros t Ht. apply beta_kernel_continuity. lra.
Qed.

Lemma beta_kernel_pos (a b t : R) : 0 < beta_kernel a b t.
Proof.
  unfold beta_kernel, Rpower. apply Rmult_lt_0_compat; apply exp_pos.
Qed.

Lemma integral_le_scal (f g : R -> R) (u v l : R) :
  Riemann_integrable f u v -> Riemann_integrable g u v -> u <= v ->
  (forall t, u < t < v -> f t <= l * g t) ->
  integral f u v <= l * integral g u v.
Proof.
  intros prf prg Huv Hle.
  pose proof (RiemannInt_P14 u v 0) as pr0.
  pose proof (RiemannInt_P10 l pr0 prg) as prs.
  rewrite (integral_eq f u v prf), (integral_eq g u v prg).
  replace (l * RiemannInt prg) with (RiemannInt pr0 + l * RiemannInt prg)
    by (rewrite (RiemannInt_P15 pr0); ring).
  rewrite <- (RiemannInt_P13 pr0 prg prs).
  apply RiemannInt_P19; [exact Huv |].
  intros t Ht. unfold fct_cte. rewrite Rplus_0_l. apply Hle. exact Ht.
Qed.

Lemma integral_le (f g : R -> R) (u v : R) :
  Riemann_integrable f u v -> Riemann_integrable g u v -> u <= v ->
  (forall t, u < t < v -> f t <= g t) ->
  integral f u v <= integral g u v.
Proof.
  intros prf prg Huv Hle.
  rewrite (integral_eq f u v prf), (integral_eq g u v prg).
  apply RiemannInt_P19; assumption.
Qed.

Lemma integral_ge_const (f : R -> R) (u v c : R) :
  Riemann_integrable f u v -> u <= v ->
  (forall t, u < t < v -> c <= f t) ->
  c * (v - u) <= integral f u v.
Proof.
  intros prf Huv Hle.
  pose proof (RiemannInt_P14 u v c) as prc.
  rewrite (integral_eq f u v prf), <- (RiemannInt_P15 prc).
  apply RiemannInt_P19; [exact Huv |].
  intros t Ht. unfold fct_cte. apply Hle. exact Ht.
Qed.

Lemma integral_chasles (f : R -> R) (u v w : R) :
  Riemann_integrable f u v -> Riemann_integrable f v w ->
  integral f u w = integral f u v + integral f v w.
Proof.
  intros pr1 pr2.
  pose proof (RiemannInt_P24 pr1 pr2) as pr3.
  rewrite (integral_eq f u v pr1), (integral_eq f v w pr2), (integral_eq f u w pr3).
  symmetry. apply RiemannInt_P26.
Qed.

Lemma beta_mass_nonneg (a b u v : R) :
  0 < u -> u <= v -> v < 1 -> 0 <= integral (beta_kernel a b) u v.
Proof.
  intros Hu Huv Hv.
  replace 0 with (0 * (v - u)) by ring.
  apply integral_ge_const; [apply beta_kernel_integrable; assumption | exact Huv |].
  intros t _. left. apply beta_kernel_pos.
Qed.

Lemma cutoff_pos (n : nat) : 0 < cutoff n.
Proof.
  unfold cutoff. apply Rinv_0_lt_compat. pose proof (pos_INR n). lra.
Qed.

Lemma cutoff_lt_1 (n : nat) : cutoff n < 1.
Proof.
  unfold cutoff. rewrite <- Rinv_1. apply Rinv_lt_contravar.
  - pose proof (pos_INR n). lra.
  - pose proof (pos_INR n). lra.
Qed.

Lemma cutoff_decr (n : nat) : cutoff (S n) <= cutoff n.
Proof.
  unfold cutoff. rewrite S_INR. apply Rinv_le_contravar.
  - pose proof (pos_INR n). lra.
  - lra.
Qed.

(** ** The mass of an interval is bounded *)

Lemma exp_le (x y : R) : x <= y -> exp x <= exp y.
Proof.
  intros [H | ->]; [left; apply exp_increasing; exact H | right; reflexivity].
Qed.

Lemma ln_le (x y : R) : 0 < x -> x <= y -> ln x <= ln y.
Proof.
  intros Hx [H | ->]; [left; apply ln_increasing; assumption | right; reflexivity].
Qed.

Lemma Rpower_1_l (y : R) : Rpower 1 y = 1.
Proof. unfold Rpower. rewrite ln_1, Rmult_0_r. apply exp_0. Qed.

Lemma ln_2_pos : 0 < ln 2.
Proof. pose proof ln_lt_2. lra. Qed.

Lemma ln_half : ln (1 / 2) = - ln 2.
Proof. replace (1 / 2) with (/ 2) by lra. apply ln_Rinv. lra. Qed.

Lemma Rpower_half_bound (s y : R) :
  1 / 2 <= s <= 1 -> Rpower s y <= Rpower 2 (Rabs y).
Proof.
  intros [Hlo Hhi]. unfold Rpower. apply exp_le.
  assert (H1 : ln s <= 0) by (rewrite <- ln_1; apply ln_le; lra).
  assert (H2 : - ln 2 <= ln s) by (rewrite <- ln_half; apply ln_le; lra).
  pose proof ln_2_pos as H3.
  unfold Rabs. destruct (Rcase_abs y) as [Hy | Hy]; nra.
Qed.

Lemma Rpower_pos (x y : R) : 0 < Rpower x y.
Proof. unfold Rpower. apply exp_pos. Qed.

Lemma kernel_bound_pos (a b : R) : 0 < kernel_bound a b.
Proof.
  unfold kernel_bound.
  pose proof (Rpower_pos 2 (Rabs (a - 1))). pose proof (Rpower_pos 2 (Rabs (b - 1))).
  lra.
Qed.

Lemma beta_kernel_le_sum (a b t : R) :
  0 < t < 1 ->
  beta_kernel a b t
  <= kernel_bound a b * (Rpower t (a - 1) + Rpower (1 - t) (b - 1)).
Proof.
  intros [H0 H1]. unfold beta_kernel, kernel_bound.
  pose proof (Rpower_pos t (a - 1)) as Pt.
  pose proof (Rpower_pos (1 - t) (b - 1)) as Ps.
  pose proof (Rpower_pos 2 (Rabs (a - 1))) as Ka.
  pose proof (Rpower_pos 2 (Rabs (b - 1))) as Kb.
  destruct (Rle_dec t (1 / 2)) as [Hle | Hgt].
  - assert (Hb : Rpower (1 - t) (b - 1) <= Rpower 2 (Rabs (b - 1)))
      by (apply Rpower_half_bound; lra).
    nra.
  - assert (Ha : Rpower t (a - 1) <= Rpower 2 (Rabs (a - 1)))
      by (apply Rpower_half_bound; lra).
    nra.
Qed.

Lemma kernel_major_derivable (a b t : R) :
  0 < a -> 0 < b -> 0 < t < 1 ->
  derivable_pt_lim (kernel_major a b) t
    (kernel_bound a b * (Rpower t (a - 1) + Rpower (1 - t) (b - 1))).
Proof.
  intros Ha Hb [H0 H1].
  change (kernel_major a b)
    with (mult_real_fct (kernel_bound a b)
            (mult_real_fct (/ a) (fun s => Rpower s a)
             - mult_real_fct (/ b)
                 (comp (fun s => Rpower s b) (fun s => (1 - s)%R)))%F).
  replace (kernel_bound a b * (Rpower t (a - 1) + Rpower (1 - t) (b - 1)))
    with (kernel_bound a b
          * (/ a * (a * Rpower t (a - 1))
             - / b * (b * Rpower (1 - t) (b - 1) * (0 - 1))))
    by (field; lra).
  apply derivable_pt_lim_scal. apply derivable_pt_lim_minus.
  - apply derivable_pt_lim_scal. apply derivable_pt_lim_power. exact H0.
  - apply derivable_pt_lim_scal. apply derivable_pt_lim_comp.
    + change (fun s => 1 - s) with (fct_cte 1 - id)%F.
      apply derivable_pt_lim_minus.
      * apply derivable_pt_lim_const.
      * apply derivable_pt_lim_id.
    + apply derivable_pt_lim_power. lra.
Qed.

Lemma kernel_major_range (a b u v : R) :
  0 < a -> 0 < b -> 0 < u -> u <= v -> v < 1 ->
  kernel_major a b v - kernel_major a b u <= kernel_bound a b * (/ a + / b).
Proof.
  intros Ha Hb Hu Huv Hv. unfold kernel_major.
  pose proof (kernel_bound_pos a b) as HK.
  assert (Hva : Rpower v a <= 1).
  { apply Rle_trans with (Rpower 1 a);
      [apply Rle_Rpower_l; lra | right; apply Rpower_1_l]. }
  assert (Hub : Rpower (1 - u) b <= 1).
  { apply Rle_trans with (Rpower 1 b);
      [apply Rle_Rpower_l; lra | right; apply Rpower_1_l]. }
  pose proof (Rpower_pos u a) as Hua. pose proof (Rpower_pos (1 - v) b) as Hvb.
  pose proof (Rinv_0_lt_compat a Ha) as Hia.
  pose proof (Rinv_0_lt_compat b Hb) as Hib.
  assert (HA : / a * Rpower v a <= / a) by nra.
  assert (HB : 0 <= / b * Rpower (1 - v) b) by nra.
  assert (HC : 0 <= / a * Rpower u a) by nra.
  assert (HD : / b * Rpower (1 - u) b <= / b) by nra.
  rewrite <- Rmult_minus_distr_l.
  apply Rmult_le_compat_l; lra.
Qed.

Lemma beta_mass_bounded (a b u v : R) :
  0 < a -> 0 < b -> 0 < u -> u <= v -> v < 1 ->
  integral (beta_kernel a b) u v <= kernel_bound a b * (/ a + / b).
Proof.
  intros Ha Hb Hu Huv Hv.
  pose proof (beta_kernel_integrable a b u v Hu Huv Hv) as pr0.
  rewrite (integral_eq _ _ _ pr0).
  destruct Huv as [Hlt | <-].
  2:{ rewrite RiemannInt_P9.
      pose proof (kernel_bound_pos a b).
      pose proof (Rinv_0_lt_compat a Ha). pose proof (Rinv_0_lt_compat b Hb). nra. }
  assert (h : u <= v) by lra.
  assert (C0 : forall x, u <= x <= v -> continuity_pt (beta_kernel a b) x).
  { intros x Hx. apply beta_kernel_continuity. lra. }
  pose proof (RiemannInt_P29 h C0) as [Hanti _].
  rewrite (RiemannInt_P20 h (FTC_P1 h C0) pr0).
  set (F := primitive h (FTC_P1 h C0)) in *.
  assert (HF : forall c, u <= c <= v -> derivable_pt_lim F c (beta_kernel a b c)).
  { intros c Hc. destruct (Hanti c Hc) as [pr Heq].
    apply (derive_pt_eq_1 F c _ pr). symmetry. exact Heq. }
  destruct (MVT_cor2 (kernel_major a b - F)%F
              (fun c => kernel_bound a b * (Rpower c (a - 1) + Rpower (1 - c) (b - 1))
                        - beta_kernel a b c) u v Hlt) as (c & Hc & Hcin).
  { intros c Hc. apply derivable_pt_lim_minus.
    - apply kernel_major_derivable; lra.
    - apply HF. exact Hc. }
  unfold minus_fct in Hc.
  pose proof (beta_kernel_le_sum a b c ltac:(lra)) as Hle.
  pose proof (kernel_major_range a b u v Ha Hb Hu h Hv) as Hrange.
  assert (0 <= (kernel_bound a b * (Rpower c (a - 1) + Rpower (1 - c) (b - 1))
                - beta_kernel a b c) * (v - u)) by nra.
  lra.
Qed.

(** ** The masses below and above [x] exist and are positive *)

Lemma beta_mass_pos (a b u v : R) :
  0 < u -> u < v -> v < 1 -> 0 < integral (beta_kernel a b) u v.
Proof.
  intros Hu Huv Hv.
  destruct (continuity_ab_min (beta_kernel a b) u v ltac:(lra)) as (m & Hmin & _).
  { intros c Hc. apply beta_kernel_continuity. lra. }
  pose proof (beta_kernel_pos a b m) as Hm.
  apply Rlt_le_trans with (beta_kernel a b m * (v - u)); [nra |].
  apply integral_ge_const; [apply beta_kernel_integrable; lra | lra |].
  intros t Ht. apply Hmin. lra.
Qed.

Section Masses.

Variables a b x : R.
Hypothesis a_pos : 0 < a.
Hypothesis b_pos : 0 < b.
Hypothesis x_range : 0 < x < 1.

Lemma below_cut (n : nat) : 0 < x * cutoff n < x.
Proof. pose proof (cutoff_pos n). pose proof (cutoff_lt_1 n). split; nra. Qed.

Lemma above_cut (n : nat) : x < 1 - (1 - x) * cutoff n < 1.
Proof. pose proof (cutoff_pos n). pose proof (cutoff_lt_1 n). split; nra. Qed.

Lemma below_seq_growing : Un_growing (below_seq a b x).
Proof.
  intros n. unfold below_seq.
  pose proof (below_cut n) as Hn. pose proof (below_cut (S n)) as HS.
  pose proof (cutoff_decr n) as Hd.
  assert (Hle : x * cutoff (S n) <= x * cutoff n) by nra.
  rewrite (integral_chasles (beta_kernel a b) (x * cutoff (S n)) (x * cutoff n) x)
    by (apply beta_kernel_integrable; lra).
  pose proof (beta_mass_nonneg a b (x * cutoff (S n)) (x * cutoff n)
                ltac:(lra) Hle ltac:(lra)).
  lra.
Qed.

Lemma above_seq_growing : Un_growing (above_seq a b x).
Proof.
  intros n. unfold above_seq.
  pose proof (above_cut n) as Hn. pose proof (above_cut (S n)) as HS.
  pose proof (cutoff_decr n) as Hd.
  assert (Hle : 1 - (1 - x) * cutoff n <= 1 - (1 - x) * cutoff (S n)) by nra.
  rewrite (integral_chasles (beta_kernel a b) x (1 - (1 - x) * cutoff n)
             (1 - (1 - x) * cutoff (S n)))
    by (apply beta_kernel_integrable; lra).
  pose proof (beta_mass_nonneg a b (1 - (1 - x) * cutoff n) (1 - (1 - x) * cutoff (S n))
                ltac:(lra) Hle ltac:(lra)).
  lra.
Qed.

Lemma below_seq_ub : has_ub (below_seq a b x).
Proof.
  exists (kernel_bound a b * (/ a + / b)). intros r [n ->].
  unfold below_seq. pose proof (below_cut n).
  apply beta_mass_bounded; lra.
Qed.

Lemma above_seq_ub : has_ub (above_seq a b x).
Proof.
  exists (kernel_bound a b * (/ a + / b)). intros r [n ->].
  unfold above_seq. pose proof (above_cut n).
  apply beta_mass_bounded; lra.
Qed.

Lemma mass_below_cv : Un_cv (below_seq a b x) (mass_below a b x).
Proof.
  destruct (growing_cv _ below_seq_growing below_seq_ub) as [l Hl].
  unfold mass_below. rewrite (limit_eq _ _ Hl). exact Hl.
Qed.

Lemma mass_above_cv : Un_cv (above_seq a b x) (mass_above a b x).
Proof.
  destruct (growing_cv _ above_seq_growing above_seq_ub) as [l Hl].
  unfold mass_above. rewrite (limit_eq _ _ Hl). exact Hl.
Qed.

Lemma mass_below_pos : 0 < mass_below a b x.
Proof.
  apply Rlt_le_trans with (below_seq a b x 0).
  - unfold below_seq. pose proof (below_cut 0). apply beta_mass_pos; lra.
  - apply growing_ineq; [exact below_seq_growing | exact mass_below_cv].
Qed.

Lemma mass_above_pos : 0 < mass_above a b x.
Proof.
  apply Rlt_le_trans with (above_seq a b x 0).
  - unfold above_seq. pose proof (above_cut 0). apply beta_mass_pos; lra.
  - apply growing_ineq; [exact above_seq_growing | exact mass_above_cv].
Qed.

End Masses.

(** ** Larger [a], smaller [b]: the mass moves to the right *)

Lemma integral_ge_scal (f g : R -> R) (u v l : R) :
  Riemann_integrable f u v -> Riemann_integrable g u v -> u <= v ->
  (forall t, u < t < v -> l * g t <= f t) ->
  l * integral g u v <= integral f u v.
Proof.
  intros prf prg Huv Hle.
  pose proof (RiemannInt_P14 u v 0) as pr0.
  pose proof (RiemannInt_P10 l pr0 prg) as prs.
  rewrite (integral_eq f u v prf), (integral_eq g u v prg).
  replace (l * RiemannInt prg) with (RiemannInt pr0 + l * RiemannInt prg)
    by (rewrite (RiemannInt_P15 pr0); ring).
  rewrite <- (RiemannInt_P13 pr0 prg prs).
  apply RiemannInt_P19; [exact Huv |].
  intros t Ht. unfold fct_cte. rewrite Rplus_0_l. apply Hle. exact Ht.
Qed.

Lemma Rpower_le_base_neg (p q y : R) :
  y <= 0 -> 0 < p <= q -> Rpower q y <= Rpower p y.
Proof.
  intros Hy [Hp Hpq]. unfold Rpower. apply exp_le.
  pose proof (ln_le p q Hp Hpq). nra.
Qed.

Lemma cv_const_mult (U : nat -> R) (l c : R) :
  Un_cv U l -> Un_cv (fun n => c * U n) (c * l).
Proof.
  intros H. apply (CV_mult (fun _ => c) U c l); [| exact H].
  intros eps Heps. exists 0%nat. intros n _.
  unfold Rdist. rewrite Rminus_diag, Rabs_R0. exact Heps.
Qed.

Lemma beta_kernel_ratio (a1 b1 a2 b2 t : R) :
  beta_kernel a2 b2 t
  = Rpower t (a2 - a1) * Rpower (1 - t) (b2 - b1) * beta_kernel a1 b1 t.
Proof.
  unfold beta_kernel.
  replace (a2 - 1) with ((a2 - a1) + (a1 - 1)) by ring.
  replace (b2 - 1) with ((b2 - b1) + (b1 - 1)) by ring.
  rewrite !Rpower_plus. ring.
Qed.

Section Comparison.

Variables a1 b1 a2 b2 x : R.
Hypothesis a_order : 0 < a1 <= a2.
Hypothesis b_order : 0 < b2 <= b1.
Hypothesis x_range : 0 < x < 1.

Local Abbreviation rho := (shape_ratio a1 b1 a2 b2 x).

Lemma rho_pos : 0 < rho.
Proof. apply Rmult_lt_0_compat; apply Rpower_pos. Qed.

Lemma kernel_below (t : R) :
  0 < t <= x -> beta_kernel a2 b2 t <= rho * beta_kernel a1 b1 t.
Proof.
  intros [Ht0 Htx]. rewrite (beta_kernel_ratio a1 b1 a2 b2 t).
  apply Rmult_le_compat_r; [left; apply beta_kernel_pos |].
  unfold shape_ratio.
  apply Rmult_le_compat; try (left; apply Rpower_pos).
  - apply Rle_Rpower_l; lra.
  - apply Rpower_le_base_neg; lra.
Qed.

Lemma kernel_above (t : R) :
  x <= t < 1 -> rho * beta_kernel a1 b1 t <= beta_kernel a2 b2 t.
Proof.
  intros [Htx Ht1]. rewrite (beta_kernel_ratio a1 b1 a2 b2 t).
  apply Rmult_le_compat_r; [left; apply beta_kernel_pos |].
  unfold shape_ratio.
  apply Rmult_le_compat; try (left; apply Rpower_pos).
  - apply Rle_Rpower_l; lra.
  - apply Rpower_le_base_neg; lra.
Qed.

Lemma mass_below_le : mass_below a2 b2 x <= rho * mass_below a1 b1 x.
Proof.
  apply Rle_cv_lim with (Un := below_seq a2 b2 x)
                        (Vn := fun n => rho * below_seq a1 b1 x n).
  - intros n. unfold below_seq. pose proof (below_cut x x_range n).
    apply integral_le_scal; try (apply beta_kernel_integrable; lra); [lra |].
    intros t Ht. apply kernel_below. lra.
  - apply mass_below_cv; lra.
  - apply cv_const_mult. apply mass_below_cv; lra.
Qed.

Lemma mass_above_ge : rho * mass_above a1 b1 x <= mass_above a2 b2 x.
Proof.
  apply Rle_cv_lim with (Un := fun n => rho * above_seq a1 b1 x n)
                        (Vn := above_seq a2 b2 x).
  - intros n. unfold above_seq. pose proof (above_cut x x_range n).
    apply integral_ge_scal; try (apply beta_kernel_integrable; lra); [lra |].
    intros t Ht. apply kernel_above. lra.
  - apply cv_const_mult. apply mass_above_cv; lra.
  - apply mass_above_cv; lra.
Qed.

Lemma Beta_cdf_shapes : Beta_cdf a2 b2 x <= Beta_cdf a1 b1 x.
Proof.
  unfold Beta_cdf.
  destruct (Rle_dec x 0) as [H | _]; [lra |].
  destruct (Rle_dec 1 x) as [H | _]; [lra |].
  pose proof (mass_below_pos a1 b1 x ltac:(lra) ltac:(lra) x_range) as X1.
  pose proof (mass_above_pos a1 b1 x ltac:(lra) ltac:(lra) x_range) as Y1.
  pose proof (mass_below_pos a2 b2 x ltac:(lra) ltac:(lra) x_range) as X2.
  pose proof (mass_above_pos a2 b2 x ltac:(lra) ltac:(lra) x_range) as Y2.
  pose proof mass_below_le as HX. pose proof mass_above_ge as HY.
  pose proof rho_pos as Hr.
  set (x1 := mass_below a1 b1 x) in *. set (y1 := mass_above a1 b1 x) in *.
  set (x2 := mass_below a2 b2 x) in *. set (y2 := mass_above a2 b2 x) in *.
  assert (Hcross : x2 * y1 <= x1 * y2).
  { apply Rle_trans with (rho * x1 * y1); nra. }
  assert (E : x1 / (x1 + y1) - x2 / (x2 + y2)
              = (x1 * y2 - x2 * y1) / ((x1 + y1) * (x2 + y2)))
    by (field; lra).
  assert (0 <= (x1 * y2 - x2 * y1) / ((x1 + y1) * (x2 + y2))).
  { unfold Rdiv. apply Rmult_le_pos; [lra |].
    left. apply Rinv_0_lt_compat. nra. }
  lra.
Qed.

End Comparison.

(** ** The same, strictly *)

Lemma cv_minus_const (U : nat -> R) (l c : R) :
  Un_cv U l -> Un_cv (fun n => U n - c) (l - c).
Proof.
  intros H eps Heps. destruct (H eps Heps) as [N HN].
  exists N. intros n Hn. specialize (HN n Hn).
  unfold Rdist in *. replace (U n - c - (l - c)) with (U n - l) by ring. exact HN.
Qed.

Section StrictComparison.

Variables a1 b1 a2 b2 x : R.
Hypothesis a_order : 0 < a1 < a2.
Hypothesis b_order : 0 < b2 <= b1.
Hypothesis x_range : 0 < x < 1.

Local Abbreviation rho := (shape_ratio a1 b1 a2 b2 x).
Local Abbreviation rho' := (shape_ratio a1 b1 a2 b2 (3 / 4 * x)).

Lemma shape_ratio_lt : rho' < rho.
Proof.
  unfold shape_ratio.
  apply Rlt_le_trans
    with (Rpower x (a2 - a1) * Rpower (1 - 3 / 4 * x) (b2 - b1)).
  - apply Rmult_lt_compat_r; [apply Rpower_pos |].
    apply Rlt_Rpower_l; lra.
  - apply Rmult_le_compat_l; [left; apply Rpower_pos |].
    apply Rpower_le_base_neg; lra.
Qed.

Lemma kernel_below_mid (t : R) :
  0 < t <= 3 / 4 * x -> beta_kernel a2 b2 t <= rho' * beta_kernel a1 b1 t.
Proof.
  intros Ht.
  apply (kernel_below a1 b1 a2 b2 (3 / 4 * x)); [lra | lra | lra | exact Ht].
Qed.

Lemma below_seq_gap (n : nat) :
  below_seq a2 b2 x n
  <= rho * below_seq a1 b1 x n
     - (rho - rho') * integral (beta_kernel a1 b1) (x / 2) (3 / 4 * x).
Proof.
  unfold below_seq.
  pose proof (below_cut x x_range n) as Hcut.
  assert (Hhalf : x * cutoff n <= x / 2).
  { assert (cutoff n <= / 2).
    { unfold cutoff. apply Rinv_le_contravar; [lra |]. pose proof (pos_INR n). lra. }
    nra. }
  assert (I : forall a b u v, 0 < u -> u <= v -> v < 1 ->
                Riemann_integrable (beta_kernel a b) u v)
    by (intros; apply beta_kernel_integrable; assumption).
  rewrite (integral_chasles (beta_kernel a2 b2) (x * cutoff n) (3 / 4 * x) x)
    by (apply I; lra).
  rewrite (integral_chasles (beta_kernel a2 b2) (x * cutoff n) (x / 2) (3 / 4 * x))
    by (apply I; lra).
  rewrite (integral_chasles (beta_kernel a1 b1) (x * cutoff n) (3 / 4 * x) x)
    by (apply I; lra).
  rewrite (integral_chasles (beta_kernel a1 b1) (x * cutoff n) (x / 2) (3 / 4 * x))
    by (apply I; lra).
  assert (H1 : integral (beta_kernel a2 b2) (x * cutoff n) (x / 2)
               <= rho * integral (beta_kernel a1 b1) (x * cutoff n) (x / 2)).
  { apply integral_le_scal; try (apply I; lra); [lra |].
    intros t Ht. apply kernel_below; lra. }
  assert (H2 : integral (beta_kernel a2 b2) (x / 2) (3 / 4 * x)
               <= rho' * integral (beta_kernel a1 b1) (x / 2) (3 / 4 * x)).
  { apply integral_le_scal; try (apply I; lra); [lra |].
    intros t Ht. apply kernel_below_mid; lra. }
  assert (H3 : integral (beta_kernel a2 b2) (3 / 4 * x) x
               <= rho * integral (beta_kernel a1 b1) (3 / 4 * x) x).
  { apply integral_le_scal; try (apply I; lra); [lra |].
    intros t Ht. apply kernel_below; lra. }
  lra.
Qed.

Lemma mass_below_lt : mass_below a2 b2 x < rho * mass_below a1 b1 x.
Proof.
  pose proof shape_ratio_lt as Hr.
  pose proof (beta_mass_pos a1 b1 (x / 2) (3 / 4 * x)
                ltac:(lra) ltac:(lra) ltac:(lra)) as Hm.
  set (gap := (rho - rho') * integral (beta_kernel a1 b1) (x / 2) (3 / 4 * x)) in *.
  assert (Hgap : 0 < gap) by (unfold gap; nra).
  apply Rle_lt_trans with (rho * mass_below a1 b1 x - gap); [| lra].
  apply Rle_cv_lim with (Un := below_seq a2 b2 x)
                        (Vn := fun n => rho * below_seq a1 b1 x n - gap).
  - exact below_seq_gap.
  - apply mass_below_cv; lra.
  - apply cv_minus_const. apply cv_const_mult. apply mass_below_cv; lra.
Qed.

Lemma Beta_cdf_shapes_strict : Beta_cdf a2 b2 x < Beta_cdf a1 b1 x.
Proof.
  unfold Beta_cdf.
  destruct (Rle_dec x 0) as [H | _]; [lra |].
  destruct (Rle_dec 1 x) as [H | _]; [lra |].
  pose proof (mass_below_pos a1 b1 x ltac:(lra) ltac:(lra) x_range) as X1.
  pose proof (mass_above_pos a1 b1 x ltac:(lra) ltac:(lra) x_range) as Y1.
  pose proof (mass_below_pos a2 b2 x ltac:(lra) ltac:(lra) x_range) as X2.
  pose proof (mass_above_pos a2 b2 x ltac:(lra) ltac:(lra) x_range) as Y2.
  pose proof mass_below_lt as HX.
  pose proof (mass_above_ge a1 b1 a2 b2 x ltac:(lra) b_order x_range) as HY.
  pose proof (rho_pos a1 b1 a2 b2 x) as Hr.
  set (x1 := mass_below a1 b1 x) in *. set (y1 := mass_above a1 b1 x) in *.
  set (x2 := mass_below a2 b2 x) in *. set (y2 := mass_above a2 b2 x) in *.
  assert (Hcross : x2 * y1 < x1 * y2).
  { apply Rlt_le_trans with (rho * x1 * y1); nra. }
  assert (E : x1 / (x1 + y1) - x2 / (x2 + y2)
              = (x1 * y2 - x2 * y1) / ((x1 + y1) * (x2 + y2)))
    by (field; lra).
  assert (0 < (x1 * y2 - x2 * y1) / ((x1 + y1) * (x2 + y2))).
  { unfold Rdiv. apply Rmult_lt_0_compat; [lra |].
    apply Rinv_0_lt_compat. nra. }
  lra.
Qed.

End StrictComparison.

(** ** The uniform law, and the range of the distribution function *)

Lemma cutoff_cv : Un_cv cutoff 0.
Proof.
  intros eps Heps.
  destruct (archimed (/ eps)) as [Hup _].
  assert (Hpos : 0 < / eps) by (apply Rinv_0_lt_compat; exact Heps).
  assert (Hz : (0 <= up (/ eps))%Z).
  { apply le_IZR. lra. }
  exists (Z.to_nat (up (/ eps))). intros n Hn.
  unfold Rdist. rewrite Rminus_0_r, Rabs_pos_eq by (left; apply cutoff_pos).
  unfold cutoff.
  assert (HN : / eps < INR n + 2).
  { apply Rlt_le_trans with (IZR (up (/ eps))); [exact Hup |].
    rewrite <- (Z2Nat.id _ Hz), <- INR_IZR_INZ.
    apply le_INR in Hn. lra. }
  rewrite <- (Rinv_inv eps).
  apply Rinv_lt_contravar; [| exact HN].
  pose proof (pos_INR n). nra.
Qed.

Lemma beta_kernel_uniform (t : R) : 0 < t < 1 -> beta_kernel 1 1 t = 1.
Proof.
  intros Ht. unfold beta_kernel.
  replace (1 - 1) with 0 by ring.
  rewrite !Rpower_O by lra. ring.
Qed.

Lemma integral_uniform (u v : R) :
  0 < u -> u <= v -> v < 1 -> integral (beta_kernel 1 1) u v = v - u.
Proof.
  intros Hu Huv Hv.
  pose proof (beta_kernel_integrable 1 1 u v Hu Huv Hv) as pr.
  pose proof (RiemannInt_P14 u v 1) as pr1.
  rewrite (integral_eq _ _ _ pr).
  rewrite (RiemannInt_P18 pr pr1 Huv).
  - rewrite RiemannInt_P15. ring.
  - intros t Ht. unfold fct_cte. apply beta_kernel_uniform. lra.
Qed.

Lemma Beta_cdf_uniform (x : R) : 0 < x < 1 -> Beta_cdf 1 1 x = x.
Proof.
  intros Hx. unfold Beta_cdf.
  destruct (Rle_dec x 0) as [H | _]; [lra |].
  destruct (Rle_dec 1 x) as [H | _]; [lra |].
  assert (Hb : mass_below 1 1 x = x).
  { apply limit_eq.
    apply Un_cv_ext with (un := fun n => x - x * cutoff n).
    - intros n. unfold below_seq. pose proof (below_cut x Hx n).
      rewrite integral_uniform by lra. reflexivity.
    - replace x with (x - x * 0) at 1 by ring.
      apply CV_minus; [| apply cv_const_mult; exact cutoff_cv].
      intros eps Heps. exists 0%nat. intros n _.
      unfold Rdist. rewrite Rminus_diag, Rabs_R0. exact Heps. }
  assert (Ha : mass_above 1 1 x = 1 - x).
  { apply limit_eq.
    apply Un_cv_ext with (un := fun n => (1 - x) - (1 - x) * cutoff n).
    - intros n. unfold above_seq. pose proof (above_cut x Hx n).
      rewrite integral_uniform by lra. ring.
    - replace (1 - x) with ((1 - x) - (1 - x) * 0) at 1 by ring.
      apply CV_minus; [| apply cv_const_mult; exact cutoff_cv].
      intros eps Heps. exists 0%nat. intros n _.
      unfold Rdist. rewrite Rminus_diag, Rabs_R0. exact Heps. }
  rewrite Hb, Ha. replace (x + (1 - x)) with 1 by ring. field.
Qed.

Lemma Beta_cdf_range (a b x : R) :
  0 < a -> 0 < b -> 0 <= Beta_cdf a b x <= 1.
Proof.
  intros Ha Hb. unfold Beta_cdf.
  destruct (Rle_dec x 0) as [H | H0]; [lra |].
  destruct (Rle_dec 1 x) as [H | H1]; [lra |].
  pose proof (mass_below_pos a b x Ha Hb ltac:(lra)) as X.
  pose proof (mass_above_pos a b x Ha Hb ltac:(lra)) as Y.
  split.
  - unfold Rdiv. apply Rmult_le_pos; [lra |].
    left. apply Rinv_0_lt_compat. lra.
  - apply Rmult_le_reg_r with (mass_below a b x + mass_above a b x); [lra |].
    unfold Rdiv. rewrite Rmult_assoc, Rinv_l by lra. lra.
Qed.

(** * The order of the probabilities *)

Lemma Beta_cdf_half_monotone : cdf_half_monotone Beta_cdf.
Proof.
  intros a1 b1 a2 b2 Ha Hb. apply Beta_cdf_shapes; [exact Ha | exact Hb | lra].
Qed.

(** C3 (as stated, refuted): with the prior [(0.4, 0.05)], that is
    [alpha = 38] and [beta = 57], [total_votes = -10] and
    [fraction_counted = 0.5], the fraction 0 gets the posterior
    Beta(38, 52) and the fraction 1 gets Beta(33, 57): the probability
    for the smaller fraction is the larger one. *)
Lemma winning_probabilities_negative_votes_example :
  fst (run (winning_probabilities Beta_cdf (2 / 5) (1 / 20) (- 10) (1 / 2) [0; 1]))
  = Ok [1 - Beta_cdf 38 52 (1 / 2); 1 - Beta_cdf 33 57 (1 / 2)] /\
  1 - Beta_cdf 33 57 (1 / 2) < 1 - Beta_cdf 38 52 (1 / 2).
Proof.
  split.
  - unfold run.
    rewrite (winning_probabilities_returns _ _ _ _ _ _ _ _ _ alpha_beta_defaults).
    cbn [fst map]. unfold posterior_win.
    apply f_equal, (f_equal2 cons); [| apply (f_equal2 cons); [| reflexivity]].
    + apply f_equal, (f_equal3 Beta_cdf); lra.
    + apply f_equal, (f_equal3 Beta_cdf); lra.
  - pose proof (Beta_cdf_shapes_strict 33 57 38 52 (1 / 2)
                  ltac:(lra) ltac:(lra) ltac:(lra)).
    lra.
Qed.

(** C3 (amended): for a valid prior and counted votes
    [total_votes * fraction_counted] that are not negative, the
    probability of winning does not decrease with the fraction in
    favour: for elements [x1 <= x2] of the input, both in [0, 1], the
    probability returned for [x1] is at most the one returned for [x2]. *)
Theorem winning_probabilities_monotone_beta (mu sigma T f x1 x2 : R)
    (xs : list R) (i j : nat) :
  0 < mu < 1 -> 0 < sigma -> sigma ^ 2 < mu * (1 - mu) ->
  0 <= T * f ->
  nth_error xs i = Some x1 -> nth_error xs j = Some x2 ->
  0 <= x1 -> x1 <= x2 -> x2 <= 1 ->
  exists (ps : list R) (p1 p2 : R),
    fst (run (winning_probabilities Beta_cdf mu sigma T f xs)) = Ok ps /\
    nth_error ps i = Some p1 /\ nth_error ps j = Some p2 /\
    p1 <= p2.
Proof.
  intros Hmu Hs Hvar Hc Hi Hj Hx1 Hx12 Hx2.
  apply (monotone_from_cdf Beta_cdf mu sigma T f x1 x2 xs i j);
    try assumption.
  exact Beta_cdf_half_monotone.
Qed.

Lemma winning_probabilities_monotone_beta_witness :
  exists (ps : list R) (p1 p2 : R),
    fst (run (winning_probabilities Beta_cdf (2 / 5) (1 / 20) 100000 (1 / 100)
                [2 / 5; 3 / 5])) = Ok ps /\
    nth_error ps 0 = Some p1 /\ nth_error ps 1 = Some p2 /\
    p1 <= p2.
Proof.
  apply (winning_probabilities_monotone_beta
           (2 / 5) (1 / 20) 100000 (1 / 100) (2 / 5) (3 / 5) [2 / 5; 3 / 5] 0 1);
    try lra; reflexivity.
Defined.
